(** * QuadKey: a shallow embedding of [quadkey/__init__.py]

    The development follows the Python module top to bottom.  Python integers
    are unbounded and are modelled by [Z]; Python strings are modelled by
    [string]; an exception is a value of [exn] carried by the [result] monad;
    a set of tiles is a [gset (Z * Z)].

    The package's two other modules, [quadkey/tile_system.py] and
    [quadkey/util.py], are imported by [__init__.py] but are not part of the
    sources at hand.  What [__init__.py] uses of them is collected in
    [Module TileSystem] and in [precondition], each modelled from the written
    specification and marked as such. *)

From stdpp Require Import gmap strings list.
From Stdlib Require Import ZArith Ascii String DecimalString PrimFloat Lia.

Local Open Scope string_scope.
Local Open Scope Z_scope.

(** ** Exceptions and results *)

Inductive exn : Type :=
| InvalidKey          (* a malformed quadkey string *)
| InvalidCoordinate   (* a geographic point out of range *)
| AssertionError      (* a failed [assert] statement *)
| TypeError.          (* subscripting [None] *)

Inductive result (A : Type) : Type :=
| OK (a : A)
| Raise (e : exn).
Arguments OK {A} a.
Arguments Raise {A} e.

(** Sequencing: an exception of the first computation is propagated. *)
#[global] Instance result_bind : MBind result := fun A B k r =>
  match r with
  | OK a => k a
  | Raise e => Raise e
  end.

(** A list comprehension whose body may raise: elements are evaluated left to
    right and the first exception aborts the whole comprehension. *)
Fixpoint comprehension {A B : Type} (f : A -> result B) (l : list A)
  : result (list B) :=
  match l with
  | [] => OK []
  | a :: l' => b ← f a; bs ← comprehension f l'; OK (b :: bs)
  end.

(** Modelled from the spec: [util.precondition], the decorator applied to
    [QuadKey.__init__] and [from_geo], is not in the sources.  Sections 4.2, 6
    and 7 of the specification describe it as argument validation at entry
    that fails with a typed error, [e] here, when the predicate is false and
    runs the decorated function otherwise. *)
Definition precondition {A : Type} (e : exn) (holds : bool) (body : result A)
  : result A :=
  if holds then body else Raise e.

(** ** Python string primitives *)

(** [s[:n]] for an integer [n]; a negative [n] counts from the end and is
    clamped at the start of the string. *)
Definition slice_to (s : string) (n : Z) : string :=
  if n <? 0
  then substring 0 (Z.to_nat (Z.of_nat (String.length s) + n)) s
  else substring 0 (Z.to_nat n) s.

(** [len(s)] *)
Definition len (s : string) : Z := Z.of_nat (String.length s).

(** [str(k)] for an integer [k] *)
Definition str (k : Z) : string := NilZero.string_of_int (Z.to_int k).

(** ** The tile system *)

(** Modelled from the spec: [quadkey/tile_system.py] is not in the sources.
    This module holds the functions of it that [__init__.py] calls, each
    written from the sentence of section 4.1 that its comment quotes, and the
    helpers they share. *)
Module TileSystem.

Definition tile : Type := Z * Z.

(** One of the characters '0', '1', '2', '3'. *)
Definition is_key_digit (c : ascii) : bool :=
  ((Ascii.eqb c "0") || (Ascii.eqb c "1") || (Ascii.eqb c "2")
   || (Ascii.eqb c "3"))%char.

Fixpoint all_key_digits (s : string) : bool :=
  match s with
  | EmptyString => true
  | String c s' => is_key_digit c && all_key_digits s'
  end.

(** Modelled from the spec: [tile_system.valid_key] is not in the sources.
    Section 4.1: true iff the key length is in [1, 23] and every character
    is one of '0', '1', '2', '3'. *)
Definition valid_key (key : string) : bool :=
  (1 <=? len key) && (len key <=? 23) && all_key_digits key.

(** Modelled from the spec: [tile_system.valid_geo] is not in the sources.
    Section 4.1: true iff lat is in [-90, 90] and lon is in [-180, 180].
    Latitude and longitude are binary64 floats, as Python's are. *)
Definition valid_geo (lat lon : float) : bool :=
  ((-90 <=? lat) && (lat <=? 90) && (-180 <=? lon) && (lon <=? 180))%float.

(** The character of a digit value in 0..3. *)
Definition digit_char (d : Z) : ascii :=
  ascii_of_nat (Z.to_nat (48 + d)).

(** The digit value of a key character. *)
Definition char_digit (c : ascii) : Z :=
  Z.of_nat (nat_of_ascii c) - 48.

(** Modelled from the spec: [TileSystem.tile_to_quadkey] is not in the
    sources.  Section 4.1: for [i] from [level] down to 1 a digit starts at
    0, gets 1 added if the bit of [tileX] for this iteration is set and 2
    added if the bit of [tileY] is set, and is appended to the key.  The
    sentence numbers the iteration's bit [b = level - i] and fixes in the
    same breath that the digit of [i = level] is the most significant one
    and that the result is the interleaving of the bits of [tileY] and
    [tileX] most significant first.  So [b] counts from the most
    significant of the [level] low bits, which is also the position of the
    digit in the key: the bit tested has weight [2^(level - 1 - b)], that
    is [2^(i - 1)].  The loop below runs [i = S j] downwards and tests bit
    [j] of weight [2^j]. *)
Fixpoint tile_to_quadkey_loop (tileX tileY : Z) (i : nat) : string :=
  match i with
  | O => EmptyString
  | S j =>
      let digit := 0 in
      let digit := if Z.testbit tileX (Z.of_nat j) then digit + 1 else digit in
      let digit := if Z.testbit tileY (Z.of_nat j) then digit + 2 else digit in
      String (digit_char digit) (tile_to_quadkey_loop tileX tileY j)
  end.

(** Modelled from the spec: [TileSystem.tile_to_quadkey], the loop above run
    from [i = level]; a level of 0 or less runs no iteration. *)
Definition tile_to_quadkey (t : tile) (level : Z) : string :=
  tile_to_quadkey_loop (fst t) (snd t) (Z.to_nat level).

(** Modelled from the spec: [TileSystem.quadkey_to_tile] is not in the
    sources.  Section 4.1: for each digit from most to least significant,
    shift [tileX] and [tileY] left by one and OR in bit 0 and bit 1 of the
    digit respectively; the level is the length of the key. *)
Fixpoint quadkey_to_tile_loop (key : string) (tileX tileY : Z) : tile :=
  match key with
  | EmptyString => (tileX, tileY)
  | String c key' =>
      let d := char_digit c in
      quadkey_to_tile_loop key'
        (Z.lor (Z.shiftl tileX 1) (Z.land d 1))
        (Z.lor (Z.shiftl tileY 1) (Z.land (Z.shiftr d 1) 1))
  end.

(** Modelled from the spec: [TileSystem.quadkey_to_tile], the loop above
    started from [(0, 0)], paired with the length of the key. *)
Definition quadkey_to_tile (key : string) : tile * Z :=
  (quadkey_to_tile_loop key 0 0, len key).

(** Modelled from the spec: [TileSystem.pixel_to_tile] is not in the
    sources.  Section 4.1: integer divide each pixel coordinate by 256. *)
Definition pixel_to_tile (pixel : Z * Z) : tile :=
  (fst pixel / 256, snd pixel / 256).

End TileSystem.

Import TileSystem.

(** ** class QuadKey *)

Record QuadKey : Type := mkQuadKey { key : string; level : Z }.

(** [QuadKey.__init__], under its [valid_key] precondition. *)
Definition QuadKey_init (k : string) : result QuadKey :=
  precondition InvalidKey (valid_key k)
    (OK {| key := k; level := len k |}).

(** The QuadKey objects a program can hold are those a constructor call
    returned. *)
Definition constructed (q : QuadKey) : Prop :=
  exists s, QuadKey_init s = OK q.

(** [__eq__] between two QuadKeys: equality of the keys. *)
Definition QuadKey_eq (a b : QuadKey) : bool := String.eqb (key a) (key b).

Definition from_tile (t : tile) (lvl : Z) : result QuadKey :=
  QuadKey_init (tile_to_quadkey t lvl).

Definition from_str (qk_str : string) : result QuadKey :=
  QuadKey_init qk_str.

Definition children (self : QuadKey) : result (list QuadKey) :=
  if level self >=? 23 then OK []
  else comprehension (fun k => QuadKey_init (String.append (key self) (str k))) [0; 1; 2; 3].

Definition parent (self : QuadKey) : result QuadKey :=
  QuadKey_init (slice_to (key self) (-1)).

Definition perms : list (Z * Z) :=
  [(-1, -1); (-1, 0); (-1, 1); (0, -1); (0, 1); (1, -1); (1, 0); (1, 1)].

(** The set of neighbour tiles built by [nearby]. *)
Definition nearby_tiles (t : tile) : gset tile :=
  list_to_set
    (map (fun perm => (Z.abs (fst t + fst perm), Z.abs (snd t + snd perm)))
       perms).

(** [nearby] returns the keys (strings) that [tile_to_quadkey] gives, in the
    iteration order of the set, which Python leaves to the hash of the tiles
    and [elements] leaves to the representation of the [gset]. *)
Definition nearby (self : QuadKey) : list string :=
  let '(t, lvl) := quadkey_to_tile (key self) in
  let tiles := nearby_tiles t in
  map (fun t' => tile_to_quadkey t' lvl) (elements tiles).

Definition is_ancestor (self node : QuadKey) : option Z :=
  if (level self <=? level node)
     || negb (String.eqb (slice_to (key self) (len (key node))) (key node))
  then None
  else Some (level self - level node).

Definition is_descendent (self node : QuadKey) : option Z :=
  is_ancestor node self.

Definition to_tile (self : QuadKey) : tile * Z :=
  quadkey_to_tile (key self).

(** [reversed(list(range(n)))] *)
Fixpoint reversed_range (n : nat) : list Z :=
  match n with
  | O => []
  | S m => Z.of_nat m :: reversed_range m
  end.

Definition unwind (self : QuadKey) : result (list QuadKey) :=
  comprehension (fun l => QuadKey_init (slice_to (key self) (l + 1)))
    (reversed_range (String.length (key self))).

(** [__ne__] *)
Definition QuadKey_ne (self other : QuadKey) : bool :=
  negb (QuadKey_eq self other).

(** [__lt__]: the comparison of the two keys as Python strings, character by
    character on their codes, a proper prefix being smaller. *)
Definition QuadKey_lt (self other : QuadKey) : bool :=
  String.ltb (key self) (key other).

(** [__str__] and [__repr__] *)
Definition QuadKey_str (self : QuadKey) : string := key self.

(** *** The generator [xdifference]

    The tiles [self_tile] and [to_tile] are two-element lists; the four
    corner variables hold one of them or [None]. *)

Record corners : Type :=
  mkCorners { se : option tile; sw : option tile;
              ne : option tile; nw : option tile }.

(** The [if]/[elif] chain that names the two tiles; it has no [else]. *)
Definition classify (self_tile to_tile : tile) : corners :=
  let none := mkCorners None None None None in
  if (fst self_tile >=? fst to_tile) && (snd self_tile <=? snd to_tile)
  then mkCorners None (Some to_tile) (Some self_tile) None
  else if (fst self_tile <=? fst to_tile) && (snd self_tile >=? snd to_tile)
  then mkCorners None (Some self_tile) (Some to_tile) None
  else if (fst self_tile <=? fst to_tile) && (snd self_tile <=? snd to_tile)
  then mkCorners (Some to_tile) None None (Some self_tile)
  else if (fst self_tile >=? fst to_tile) && (snd self_tile >=? snd to_tile)
  then mkCorners (Some self_tile) None None (Some to_tile)
  else none.

(** Truth value of a corner variable: a two-element list is true, [None] is
    false. *)
Definition truthy (o : option tile) : bool :=
  match o with Some _ => true | None => false end.

(** [a[..] if a else b[..]]: subscripting [None] raises. *)
Definition pick (a b : option tile) : result tile :=
  match a, b with
  | Some t, _ => OK t
  | None, Some t => OK t
  | None, None => Raise TypeError
  end.

(** [(sw and cur[y] <= sw[y]) or (nw and cur[y] >= nw[y])] *)
Definition inner_test (c : corners) (cur : tile) : bool :=
  match sw c with Some t => snd cur <=? snd t | None => false end
  || match nw c with Some t => snd cur >=? snd t | None => false end.

(** A run of the generator is the list of the values it yielded and the way
    it stopped; the loops are bounded by [fuel], and [None] says the fuel ran
    out before the loop was left. *)
Fixpoint inner_while (fuel : nat) (c : corners) (lvl : Z) (cur : tile)
  : option (list QuadKey * result tile) :=
  match fuel with
  | O => None
  | S fuel' =>
      if inner_test c cur then
        match from_tile cur lvl with
        | Raise e => Some ([], Raise e)
        | OK qk =>
            let step := if truthy (sw c) then 1 else -1 in
            match inner_while fuel' c lvl (fst cur, snd cur + step) with
            | None => None
            | Some (ys, r) => Some (qk :: ys, r)
            end
        end
      else Some ([], OK cur)
  end.

Fixpoint outer_while (fuel : nat) (c : corners) (lvl : Z) (cur : tile)
  : option (list QuadKey * result unit) :=
  match fuel with
  | O => None
  | S fuel' =>
      match pick (sw c) (nw c) with
      | Raise e => Some ([], Raise e)
      | OK bound =>
          if fst cur >=? fst bound then
            match inner_while fuel' c lvl cur with
            | None => None
            | Some (ys, Raise e) => Some (ys, Raise e)
            | Some (ys, OK cur') =>
                match pick (ne c) (se c) with
                | Raise e => Some (ys, Raise e)
                | OK start =>
                    match outer_while fuel' c lvl (fst cur' - 1, snd start) with
                    | None => None
                    | Some (zs, r) => Some ((ys ++ zs)%list, r)
                    end
                end
            end
          else Some ([], OK tt)
      end
  end.

Definition xdifference (fuel : nat) (first second : QuadKey)
  : option (list QuadKey * result unit) :=
  if level first =? level second then
    let self_tile := fst (to_tile first) in
    let to_tile := fst (to_tile second) in
    let c := classify self_tile to_tile in
    match pick (ne c) (se c) with
    | Raise e => Some ([], Raise e)
    | OK cur => outer_while fuel c (level first) cur
    end
  else Some ([], Raise AssertionError).

(** The list comprehension over the generator: an exception of the generator
    leaves the comprehension and no list is returned. *)
Definition difference (fuel : nat) (self to : QuadKey)
  : option (result (list QuadKey)) :=
  match xdifference fuel self to with
  | None => None
  | Some (ys, OK _) => Some (OK ys)
  | Some (_, Raise e) => Some (Raise e)
  end.

(** *** Module-level constructors *)

Section FromGeo.

(** Modelled from the spec: [TileSystem.geo_to_pixel], the Mercator
    projection of a point to integer pixel coordinates, is floating-point
    code that is not in the sources.  Sections 4.1 and 7 give it as a
    function that clips its input and never raises; it is kept abstract. *)
Variable geo_to_pixel : float * float -> Z -> Z * Z.

Definition from_geo (geo : float * float) (lvl : Z) : result QuadKey :=
  precondition InvalidCoordinate (valid_geo (fst geo) (snd geo))
    (let pixel := geo_to_pixel geo lvl in
     let t := pixel_to_tile pixel in
     let k := tile_to_quadkey t lvl in
     QuadKey_init k).

End FromGeo.

Definition LAT_STR : string := "lat".
Definition LON_STR : string := "lon".

(** [geo_to_dict]: the dict display [{LAT_STR: geo[0], LON_STR: geo[1]}],
    whose entries are stored from left to right. *)
Definition geo_to_dict (geo : float * float) : gmap string float :=
  <[LON_STR := snd geo]> (<[LAT_STR := fst geo]> ∅).

(** * Vocabulary of the statements

    The definitions below are not part of the program: they name what the
    statements about it speak of. *)

(** The key digit of one bit of [tileX] and one bit of [tileY], as the body
    of the loop of [tile_to_quadkey] computes it. *)
Definition interleave (bx by_ : bool) : Z :=
  let digit := 0 in
  let digit := if bx then digit + 1 else digit in
  if by_ then digit + 2 else digit.

(** The strings the constructor is said to reject: empty, longer than 23
    characters, or holding a character other than '0', '1', '2', '3'. *)
Definition malformed (s : string) : Prop :=
  s = EmptyString \/
  (23 < String.length s)%nat \/
  exists c : ascii,
    In c (list_ascii_of_string s) /\ ~ In c ["0"; "1"; "2"; "3"]%char.

(** [p] is a strict prefix of [s]: [s] is [p] followed by at least one more
    character. *)
Definition strict_prefix (p s : string) : Prop :=
  exists u, u <> EmptyString /\ s = String.append p u.

(** The child of [k] for the digit character [c]. *)
Definition child (k : QuadKey) (c : ascii) : QuadKey :=
  {| key := String.append (key k) (String c EmptyString);
     level := level k + 1 |}.

(** The QuadKey on the first [n] characters of [s]. *)
Definition prefix_key (s : string) (n : nat) : QuadKey :=
  {| key := substring 0 n s; level := Z.of_nat n |}.

(** The QuadKeys on the prefixes of [s] of length [n], [n - 1], ..., 1. *)
Fixpoint prefixes_desc (s : string) (n : nat) : list QuadKey :=
  match n with
  | O => []
  | S m => prefix_key s (S m) :: prefixes_desc s m
  end.

(** The QuadKey that [from_tile] builds for a tile at a valid level. *)
Definition tile_key (lvl : Z) (t : tile) : QuadKey :=
  {| key := tile_to_quadkey t lvl; level := lvl |}.

(** The direction in which the inner loop moves [cur[y]]. *)
Definition step (c : corners) : Z := if truthy (sw c) then 1 else -1.

(** The tiles of one pass of the inner loop: [n] tiles of abscissa [x], from
    ordinate [y] on in steps of [d]. *)
Fixpoint column (x y d : Z) (n : nat) : list tile :=
  match n with
  | O => []
  | S n' => (x, y) :: column x (y + d) d n'
  end.

(** The tiles of [m] passes of the outer loop, from abscissa [x] downwards. *)
Fixpoint grid (x y d : Z) (n m : nat) : list tile :=
  match m with
  | O => []
  | S m' => (column x y d n ++ grid (x - 1) y d n m')%list
  end.

(** * Properties *)

(** ** Evaluation on small inputs *)

Example tile_to_quadkey_3_5_3 : tile_to_quadkey (3, 5) 3 = "213".
Proof. reflexivity. Qed.

Example quadkey_to_tile_213 : quadkey_to_tile "213" = ((3, 5), 3).
Proof. reflexivity. Qed.

Example QuadKey_init_empty : QuadKey_init "" = Raise InvalidKey.
Proof. reflexivity. Qed.

Example QuadKey_init_digit_4 : QuadKey_init "0124" = Raise InvalidKey.
Proof. reflexivity. Qed.

Example parent_of_level_1 :
  parent {| key := "1"; level := 1 |} = Raise InvalidKey.
Proof. reflexivity. Qed.

Example unwind_123 :
  unwind {| key := "123"; level := 3 |}
  = OK [ {| key := "123"; level := 3 |}; {| key := "12"; level := 2 |};
         {| key := "1"; level := 1 |} ].
Proof. reflexivity. Qed.

Example difference_21_12 :
  difference 5 {| key := "21"; level := 2 |} {| key := "12"; level := 2 |}
  = Some (OK [ {| key := "12"; level := 2 |}; {| key := "30"; level := 2 |};
               {| key := "03"; level := 2 |}; {| key := "21"; level := 2 |} ]).
Proof. reflexivity. Qed.

Example difference_21_12_short_fuel :
  difference 4 {| key := "21"; level := 2 |} {| key := "12"; level := 2 |}
  = None.
Proof. reflexivity. Qed.

(** ** Strings *)

Lemma substring_0_length (s : string) :
  substring 0 (String.length s) s = s.
Proof. induction s as [|c s IH]; simpl; [reflexivity | now rewrite IH]. Qed.

Lemma length_substring_0 (n : nat) (s : string) :
  String.length (substring 0 n s) = Nat.min n (String.length s).
Proof.
  revert n; induction s as [|c s IH]; intros [|n]; simpl; try reflexivity.
  now rewrite IH.
Qed.

Lemma length_append (s t : string) :
  String.length (String.append s t)
  = (String.length s + String.length t)%nat.
Proof. induction s as [|c s IH]; simpl; [reflexivity | now rewrite IH]. Qed.

Lemma substring_0_append (s t : string) :
  substring 0 (String.length s) (String.append s t) = s.
Proof. induction s as [|c s IH]; simpl; [now destruct t | now rewrite IH]. Qed.

Lemma all_key_digits_append (s t : string) :
  all_key_digits (String.append s t) = all_key_digits s && all_key_digits t.
Proof.
  induction s as [|c s IH]; simpl; [reflexivity|].
  now rewrite IH, andb_assoc.
Qed.

Lemma all_key_digits_substring (n : nat) (s : string) :
  all_key_digits s = true -> all_key_digits (substring 0 n s) = true.
Proof.
  revert n; induction s as [|c s IH]; intros [|n]; simpl; try reflexivity.
  intros [Hc Hs]%andb_true_iff. rewrite Hc; simpl. now apply IH.
Qed.

(** ** The constructor *)

Lemma valid_key_spec (s : string) :
  valid_key s = true <->
  (1 <= String.length s <= 23)%nat /\ all_key_digits s = true.
Proof.
  unfold valid_key, len.
  rewrite !andb_true_iff, !Z.leb_le. intuition lia.
Qed.

Lemma QuadKey_init_OK (s : string) (q : QuadKey) :
  QuadKey_init s = OK q <->
  valid_key s = true /\ q = {| key := s; level := len s |}.
Proof.
  unfold QuadKey_init, precondition.
  destruct (valid_key s); split; intros H.
  - now inversion H.
  - destruct H as [_ ->]. reflexivity.
  - discriminate.
  - now destruct H.
Qed.

Lemma QuadKey_init_valid (s : string) :
  valid_key s = true -> QuadKey_init s = OK {| key := s; level := len s |}.
Proof. intros H. now apply QuadKey_init_OK. Qed.

Lemma constructed_inv (q : QuadKey) :
  constructed q <-> valid_key (key q) = true /\ level q = len (key q).
Proof.
  split.
  - intros [s [Hv ->]%QuadKey_init_OK]. simpl. auto.
  - intros [Hv Hl]. exists (key q). apply QuadKey_init_OK.
    split; [assumption|]. destruct q; simpl in *; now subst.
Qed.

(** ** Bit interleaving *)

Lemma lor_shiftl_bit (a : Z) (b : bool) :
  0 <= a -> Z.lor (Z.shiftl a 1) (Z.b2z b) = 2 * a + Z.b2z b.
Proof.
  intros Ha. destruct a as [|p|p]; [now destruct b| |lia].
  destruct b; reflexivity.
Qed.

Lemma char_digit_digit_char (bx by_ : bool) :
  char_digit (digit_char (interleave bx by_)) = interleave bx by_.
Proof. now destruct bx, by_. Qed.

Lemma interleave_bit0 (bx by_ : bool) :
  Z.land (interleave bx by_) 1 = Z.b2z bx.
Proof. now destruct bx, by_. Qed.

Lemma interleave_bit1 (bx by_ : bool) :
  Z.land (Z.shiftr (interleave bx by_) 1) 1 = Z.b2z by_.
Proof. now destruct bx, by_. Qed.

Lemma is_key_digit_digit_char (bx by_ : bool) :
  is_key_digit (digit_char (interleave bx by_)) = true.
Proof. now destruct bx, by_. Qed.

Lemma mod_pow2_succ (x : Z) (j : nat) :
  x mod 2 ^ Z.of_nat (S j)
  = Z.b2z (Z.testbit x (Z.of_nat j)) * 2 ^ Z.of_nat j + x mod 2 ^ Z.of_nat j.
Proof.
  rewrite Nat2Z.inj_succ, Z.pow_succ_r by lia.
  rewrite (Z.mul_comm 2), Z.rem_mul_r by lia.
  rewrite Z.testbit_spec' by lia. lia.
Qed.

Lemma tile_to_quadkey_loop_length (x y : Z) (i : nat) :
  String.length (tile_to_quadkey_loop x y i) = i.
Proof. induction i as [|j IH]; simpl; [reflexivity | now rewrite IH]. Qed.

Lemma tile_to_quadkey_loop_digits (x y : Z) (i : nat) :
  all_key_digits (tile_to_quadkey_loop x y i) = true.
Proof.
  induction i as [|j IH]; [reflexivity|].
  cbn [tile_to_quadkey_loop all_key_digits].
  rewrite IH, andb_true_r.
  apply (is_key_digit_digit_char (Z.testbit x (Z.of_nat j))
           (Z.testbit y (Z.of_nat j))).
Qed.

Lemma quadkey_to_tile_loop_encode (i : nat) (x y ax ay : Z) :
  0 <= ax -> 0 <= ay ->
  quadkey_to_tile_loop (tile_to_quadkey_loop x y i) ax ay
  = (ax * 2 ^ Z.of_nat i + x mod 2 ^ Z.of_nat i,
     ay * 2 ^ Z.of_nat i + y mod 2 ^ Z.of_nat i).
Proof.
  revert ax ay; induction i as [|j IH]; intros ax ay Hax Hay.
  - simpl. rewrite !Z.mod_1_r. f_equal; lia.
  - cbn [tile_to_quadkey_loop quadkey_to_tile_loop].
    set (bx := Z.testbit x (Z.of_nat j)).
    set (by_ := Z.testbit y (Z.of_nat j)).
    change (char_digit _) with (char_digit (digit_char (interleave bx by_))).
    rewrite char_digit_digit_char, interleave_bit0, interleave_bit1.
    rewrite !lor_shiftl_bit by assumption.
    rewrite IH by (destruct bx, by_; simpl; lia).
    rewrite !mod_pow2_succ. fold bx by_.
    rewrite Nat2Z.inj_succ, Z.pow_succ_r by lia.
    f_equal; ring.
Qed.

Lemma tile_to_quadkey_length (t : tile) (L : Z) :
  len (tile_to_quadkey t L) = Z.max 0 L.
Proof.
  unfold tile_to_quadkey, len. rewrite tile_to_quadkey_loop_length. lia.
Qed.

Lemma tile_to_quadkey_valid (t : tile) (L : Z) :
  1 <= L <= 23 -> valid_key (tile_to_quadkey t L) = true.
Proof.
  intros HL. unfold valid_key.
  rewrite tile_to_quadkey_length.
  unfold tile_to_quadkey. rewrite tile_to_quadkey_loop_digits.
  rewrite !andb_true_iff, !Z.leb_le. repeat split; lia.
Qed.

Lemma quadkey_to_tile_encode (x y L : Z) :
  0 <= L ->
  quadkey_to_tile (tile_to_quadkey (x, y) L) = ((x mod 2 ^ L, y mod 2 ^ L), L).
Proof.
  intros HL. unfold quadkey_to_tile.
  rewrite tile_to_quadkey_length.
  unfold tile_to_quadkey; simpl fst; simpl snd.
  rewrite quadkey_to_tile_loop_encode by lia.
  rewrite Z2Nat.id, Z.max_r by lia.
  now rewrite !Z.mul_0_l, !Z.add_0_l.
Qed.

Lemma from_tile_OK (t : tile) (L : Z) :
  1 <= L <= 23 ->
  from_tile t L = OK {| key := tile_to_quadkey t L; level := L |}.
Proof.
  intros HL. unfold from_tile.
  rewrite QuadKey_init_valid by now apply tile_to_quadkey_valid.
  rewrite tile_to_quadkey_length. do 2 f_equal. lia.
Qed.

(** The encoder reads only the [i] low bits of the coordinates. *)
Lemma tile_to_quadkey_loop_ext (i : nat) (x y x' y' : Z) :
  (forall j, 0 <= j < Z.of_nat i -> Z.testbit x j = Z.testbit x' j) ->
  (forall j, 0 <= j < Z.of_nat i -> Z.testbit y j = Z.testbit y' j) ->
  tile_to_quadkey_loop x y i = tile_to_quadkey_loop x' y' i.
Proof.
  induction i as [|j IH]; intros Hx Hy; [reflexivity|].
  cbn [tile_to_quadkey_loop].
  rewrite (Hx (Z.of_nat j)), (Hy (Z.of_nat j)) by lia.
  f_equal. apply IH; intros; [apply Hx | apply Hy]; lia.
Qed.

Lemma tile_to_quadkey_loop_mod (i : nat) (x y : Z) :
  tile_to_quadkey_loop (x mod 2 ^ Z.of_nat i) (y mod 2 ^ Z.of_nat i) i
  = tile_to_quadkey_loop x y i.
Proof.
  apply tile_to_quadkey_loop_ext; intros j Hj;
    apply Z.mod_pow2_bits_low; lia.
Qed.

Lemma key_digit_interleave (c : ascii) :
  is_key_digit c = true ->
  exists bx by_, c = digit_char (interleave bx by_).
Proof.
  unfold is_key_digit. rewrite !orb_true_iff.
  intros [[[H|H]|H]|H]; apply Ascii.eqb_eq in H; subst c.
  - now exists false, false.
  - now exists true, false.
  - now exists false, true.
  - now exists true, true.
Qed.

Lemma quadkey_to_tile_loop_decode (s : string) :
  all_key_digits s = true ->
  exists X Y,
    0 <= X < 2 ^ len s /\ 0 <= Y < 2 ^ len s /\
    (forall ax ay, 0 <= ax -> 0 <= ay ->
       quadkey_to_tile_loop s ax ay
       = (ax * 2 ^ len s + X, ay * 2 ^ len s + Y)) /\
    tile_to_quadkey_loop X Y (String.length s) = s.
Proof.
  unfold len. induction s as [|c s IH]; intros Hs.
  - exists 0, 0. simpl. repeat split; try lia.
    intros; f_equal; lia.
  - cbn [all_key_digits] in Hs. apply andb_true_iff in Hs as [Hc Hs].
    destruct (IH Hs) as (X & Y & HX & HY & Hloop & Henc).
    destruct (key_digit_interleave c Hc) as (bx & by_ & ->).
    set (m := String.length s) in *.
    assert (Hpow : 0 < 2 ^ Z.of_nat m) by (apply Z.pow_pos_nonneg; lia).
    exists (Z.b2z bx * 2 ^ Z.of_nat m + X), (Z.b2z by_ * 2 ^ Z.of_nat m + Y).
    cbn [String.length]. fold m.
    rewrite Nat2Z.inj_succ, Z.pow_succ_r by lia.
    split; [destruct bx; simpl; lia|].
    split; [destruct by_; simpl; lia|].
    split.
    + intros ax ay Hax Hay. cbn [quadkey_to_tile_loop].
      rewrite char_digit_digit_char, interleave_bit0, interleave_bit1.
      rewrite !lor_shiftl_bit by assumption.
      rewrite Hloop by (destruct bx, by_; simpl; lia).
      f_equal; ring.
    + cbn [tile_to_quadkey_loop].
      assert (Tx : Z.testbit (Z.b2z bx * 2 ^ Z.of_nat m + X) (Z.of_nat m) = bx)
        by (apply (Z.testbit_unique _ _ _ X 0); [lia | ring]).
      assert (Ty : Z.testbit (Z.b2z by_ * 2 ^ Z.of_nat m + Y) (Z.of_nat m) = by_)
        by (apply (Z.testbit_unique _ _ _ Y 0); [lia | ring]).
      rewrite Tx, Ty.
      fold (interleave bx by_). f_equal.
      etransitivity; [|exact Henc].
      apply tile_to_quadkey_loop_ext; intros j Hj.
      * rewrite <- (Z.mod_pow2_bits_low _ (Z.of_nat m)) by lia.
        rewrite Z.add_comm, Z.mod_add by lia.
        apply Z.mod_pow2_bits_low; lia.
      * rewrite <- (Z.mod_pow2_bits_low _ (Z.of_nat m)) by lia.
        rewrite Z.add_comm, Z.mod_add by lia.
        apply Z.mod_pow2_bits_low; lia.
Qed.

Lemma quadkey_to_tile_range (s : string) :
  all_key_digits s = true ->
  0 <= fst (fst (quadkey_to_tile s)) < 2 ^ len s /\
  0 <= snd (fst (quadkey_to_tile s)) < 2 ^ len s.
Proof.
  intros Hs. destruct (quadkey_to_tile_loop_decode s Hs)
    as (X & Y & HX & HY & Hloop & _).
  unfold quadkey_to_tile. rewrite Hloop by lia. simpl. lia.
Qed.

Lemma tile_to_quadkey_decode (s : string) :
  all_key_digits s = true ->
  tile_to_quadkey (fst (quadkey_to_tile s)) (snd (quadkey_to_tile s)) = s.
Proof.
  intros Hs. destruct (quadkey_to_tile_loop_decode s Hs)
    as (X & Y & HX & HY & Hloop & Henc).
  unfold quadkey_to_tile, tile_to_quadkey. rewrite Hloop by lia.
  cbn [fst snd]. unfold len. rewrite Nat2Z.id.
  now rewrite !Z.mul_0_l, !Z.add_0_l.
Qed.

(** C2.  For a level L in [1, 23] and tile coordinates 0 <= x, y < 2^L,
    [from_tile ((x, y), L)] succeeds and [to_tile] of the result is
    [((x, y), L)]: decoding the key that encodes a tile gives the tile and
    level back; and encoding the tile and level that a valid key decodes to
    gives the key back, so the two conversions are inverses of each other. *)
Theorem from_tile_to_tile_roundtrip (x y L : Z) :
  1 <= L <= 23 -> 0 <= x < 2 ^ L -> 0 <= y < 2 ^ L ->
  quadkey_to_tile (tile_to_quadkey (x, y) L) = ((x, y), L) /\
  (exists q, from_tile (x, y) L = OK q /\ to_tile q = ((x, y), L)) /\
  (forall k, valid_key k = true ->
     tile_to_quadkey (fst (quadkey_to_tile k)) (snd (quadkey_to_tile k)) = k).
Proof.
  intros HL Hx Hy.
  assert (E : quadkey_to_tile (tile_to_quadkey (x, y) L) = ((x, y), L)).
  { rewrite quadkey_to_tile_encode by lia.
    now rewrite !Z.mod_small by lia. }
  split; [exact E|]. split.
  - eexists. split; [now apply from_tile_OK|]. exact E.
  - intros k [_ Hk]%valid_key_spec. now apply tile_to_quadkey_decode.
Qed.

Lemma from_tile_to_tile_roundtrip_witness :
  (1 <= 3 <= 23 /\ 0 <= 3 < 2 ^ 3 /\ 0 <= 5 < 2 ^ 3) /\
  quadkey_to_tile (tile_to_quadkey (3, 5) 3) = ((3, 5), 3) /\
  (exists q, from_tile (3, 5) 3 = OK q /\ to_tile q = ((3, 5), 3)) /\
  (forall k, valid_key k = true ->
     tile_to_quadkey (fst (quadkey_to_tile k)) (snd (quadkey_to_tile k)) = k).
Proof.
  split; [lia|].
  apply (from_tile_to_tile_roundtrip 3 5 3); lia.
Defined.

(** ** Construction from a string *)

Lemma is_key_digit_In (c : ascii) :
  is_key_digit c = true <-> In c ["0"; "1"; "2"; "3"]%char.
Proof.
  unfold is_key_digit. rewrite !orb_true_iff, !Ascii.eqb_eq. simpl.
  intuition congruence.
Qed.

Lemma all_key_digits_Forall (s : string) :
  all_key_digits s = true <->
  forall c, In c (list_ascii_of_string s) -> In c ["0"; "1"; "2"; "3"]%char.
Proof.
  induction s as [|c s IH]; cbn [all_key_digits list_ascii_of_string].
  - split; [intros _ c [] | reflexivity].
  - rewrite andb_true_iff, IH, is_key_digit_In. split.
    + intros [Hc Hs] d [<-|Hd]; auto.
    + intros H. split; [|intros d Hd]; apply H; simpl; auto.
Qed.

Lemma valid_key_malformed (s : string) :
  valid_key s = true <-> ~ malformed s.
Proof.
  rewrite valid_key_spec, all_key_digits_Forall. unfold malformed. split.
  - intros [Hlen Hall] [->|[Hlong|(c & Hc & Hout)]].
    + simpl in Hlen. lia.
    + lia.
    + now apply Hout, Hall.
  - intros Hn. split; [split|].
    + destruct s; [exfalso; apply Hn; now left | simpl; lia].
    + destruct (le_lt_dec (String.length s) 23) as [Hle|Hgt]; [exact Hle|].
      exfalso; apply Hn; right; now left.
    + intros c Hc.
      destruct (is_key_digit c) eqn:E; [now apply is_key_digit_In|].
      exfalso; apply Hn; right; right. exists c. split; [exact Hc|].
      intros Hin%is_key_digit_In. congruence.
Qed.

Lemma malformed_dec (s : string) : malformed s \/ ~ malformed s.
Proof.
  destruct (valid_key s) eqn:E.
  - right. now apply valid_key_malformed.
  - left. unfold malformed.
    apply not_true_iff_false in E. rewrite valid_key_spec in E.
    destruct s as [|c0 s0] eqn:Es; [now left|]. rewrite <- Es in *.
    destruct (le_lt_dec (String.length s) 23) as [Hle|Hgt];
      [|right; now left].
    right; right.
    assert (Hd : all_key_digits s = false).
    { destruct (all_key_digits s); [|reflexivity].
      exfalso; apply E. split; [|reflexivity].
      subst s; simpl in *; lia. }
    clear - Hd. induction s as [|c s IH]; [discriminate|].
    cbn [all_key_digits] in Hd. apply andb_false_iff in Hd as [Hc|Hs].
    + exists c. split; [now left|].
      intros Hin%is_key_digit_In. congruence.
    + destruct (IH Hs) as (d & Hd & Hout).
      exists d. split; [now right | exact Hout].
Qed.

(** C7.  [QuadKey(s)] and [from_str(s)] fail with [InvalidKey] exactly when
    [s] is empty, longer than 23 characters or holds a character outside
    '0'..'3'; for every other [s] they return the QuadKey whose key is [s]
    and whose level is [len(s)]. *)
Theorem QuadKey_init_spec (s : string) :
  (malformed s /\
   QuadKey_init s = Raise InvalidKey /\ from_str s = Raise InvalidKey)
  \/
  (~ malformed s /\
   QuadKey_init s = OK {| key := s; level := len s |} /\
   from_str s = OK {| key := s; level := len s |}).
Proof.
  unfold from_str. destruct (valid_key s) eqn:E.
  - right. split; [now apply valid_key_malformed|].
    now rewrite QuadKey_init_valid.
  - left. split.
    + destruct (malformed_dec s) as [H|H]; [exact H|].
      apply valid_key_malformed in H. congruence.
    + unfold QuadKey_init, precondition. now rewrite E.
Qed.

(** ** Ancestors and descendants *)

Lemma substring_prefix_iff (p s : string) :
  substring 0 (String.length p) s = p <-> exists u, s = String.append p u.
Proof.
  split.
  - revert s; induction p as [|c p IH]; intros s H.
    + exists s. reflexivity.
    + destruct s as [|d s]; [discriminate|].
      simpl in H. injection H as -> H.
      destruct (IH s H) as [u ->]. now exists u.
  - intros [u ->]. apply substring_0_append.
Qed.

Lemma slice_to_len (s p : string) :
  slice_to s (len p) = substring 0 (String.length p) s.
Proof.
  unfold slice_to, len.
  destruct (Z.ltb_spec (Z.of_nat (String.length p)) 0) as [H|H]; [lia|].
  now rewrite Nat2Z.id.
Qed.

(** C3.  For QuadKeys [a] and [b], [a.is_ancestor(b)] is [a.level - b.level]
    if [b]'s key is a strict prefix of [a]'s key and [a.level > b.level], and
    [None] otherwise (a value in both cases, never an exception); and
    [a.is_descendent(b)] is [b.is_ancestor(a)]. *)
Theorem is_ancestor_spec (a b : QuadKey) :
  constructed a -> constructed b ->
  (strict_prefix (key b) (key a) /\ level a > level b ->
   is_ancestor a b = Some (level a - level b)) /\
  (~ (strict_prefix (key b) (key a) /\ level a > level b) ->
   is_ancestor a b = None) /\
  is_descendent a b = is_ancestor b a.
Proof.
  intros [_ La]%constructed_inv [_ Lb]%constructed_inv.
  split; [|split; [|reflexivity]]; unfold is_ancestor;
    rewrite slice_to_len;
    destruct (Z.leb_spec (level a) (level b)) as [Hle|Hgt]; cbn [orb].
  - intros [_ H]. lia.
  - intros [(u & _ & Hu) _].
    assert (E : substring 0 (String.length (key b)) (key a) = key b)
      by (apply substring_prefix_iff; now exists u).
    now rewrite E, String.eqb_refl.
  - reflexivity.
  - intros Hn.
    destruct (String.eqb_spec
                (substring 0 (String.length (key b)) (key a)) (key b))
      as [E|E]; [|reflexivity].
    exfalso; apply Hn. split; [|lia].
    apply substring_prefix_iff in E as [u Hu]. exists u. split; [|exact Hu].
    intros ->. rewrite La, Lb, Hu in Hgt. unfold len in Hgt.
    rewrite length_append in Hgt. simpl in Hgt. lia.
Qed.

Lemma is_ancestor_spec_witness :
  let a := {| key := "12030"; level := 5 |} in
  let b := {| key := "120"; level := 3 |} in
  (constructed a /\ constructed b) /\
  (strict_prefix (key b) (key a) /\ level a > level b ->
   is_ancestor a b = Some (level a - level b)) /\
  (~ (strict_prefix (key b) (key a) /\ level a > level b) ->
   is_ancestor a b = None) /\
  is_descendent a b = is_ancestor b a.
Proof.
  intros a b.
  assert (Ha : constructed a) by (exists "12030"; reflexivity).
  assert (Hb : constructed b) by (exists "120"; reflexivity).
  split; [split; assumption|].
  exact (is_ancestor_spec a b Ha Hb).
Defined.

(** The claim C4 as it is worded, refuted on the code: for
    [a = QuadKey("12030")] and [b = QuadKey("120")] it is not the case that
    [a.is_ancestor(b)] is [None] and [a.is_descendent(b)] is 2. *)
Lemma is_ancestor_12030_120_as_claimed_fails :
  let a := {| key := "12030"; level := 5 |} in
  let b := {| key := "120"; level := 3 |} in
  QuadKey_init "12030" = OK a /\ QuadKey_init "120" = OK b /\
  ~ (is_ancestor a b = None /\ is_descendent a b = Some 2).
Proof.
  intros a b. split; [reflexivity|]. split; [reflexivity|].
  intros [H _]. vm_compute in H. discriminate H.
Qed.

(** C4, amended.  For [a = QuadKey("12030")] and [b = QuadKey("120")],
    [a.is_ancestor(b)] is 2, since "120" is an ancestor of "12030" two levels
    up, and [a.is_descendent(b)], that is [b.is_ancestor(a)], is [None]. *)
Theorem is_ancestor_12030_120 :
  let a := {| key := "12030"; level := 5 |} in
  let b := {| key := "120"; level := 3 |} in
  QuadKey_init "12030" = OK a /\ QuadKey_init "120" = OK b /\
  is_ancestor a b = Some 2 /\ is_descendent a b = None.
Proof. repeat split. Qed.

(** ** Children and parent *)

Lemma slice_to_drop_last (s : string) (c : ascii) :
  slice_to (String.append s (String c EmptyString)) (-1) = s.
Proof.
  unfold slice_to. cbn [Z.ltb Z.compare].
  rewrite length_append. cbn [String.length].
  replace (Z.to_nat (Z.of_nat (String.length s + 1) + -1))
    with (String.length s) by lia.
  apply substring_0_append.
Qed.

Lemma valid_key_snoc (s : string) (c : ascii) :
  valid_key s = true -> len s < 23 -> is_key_digit c = true ->
  valid_key (String.append s (String c EmptyString)) = true.
Proof.
  unfold len. intros [Hlen Hd]%valid_key_spec Hlt Hc. apply valid_key_spec.
  rewrite length_append, all_key_digits_append, Hd. cbn. rewrite Hc.
  split; [lia | reflexivity].
Qed.

Lemma append_inj_r (s t u : string) :
  String.append s t = String.append s u -> t = u.
Proof. induction s as [|c s IH]; simpl; [auto | intros [= H]; auto]. Qed.

Lemma QuadKey_init_child (k : QuadKey) (c : ascii) :
  constructed k -> level k < 23 -> is_key_digit c = true ->
  QuadKey_init (String.append (key k) (String c EmptyString)) = OK (child k c).
Proof.
  intros [Hv Hl]%constructed_inv Hlt Hc.
  rewrite QuadKey_init_valid by (apply valid_key_snoc; [assumption|lia|assumption]).
  unfold child. do 2 f_equal. rewrite Hl. unfold len.
  rewrite length_append. simpl. lia.
Qed.

Lemma parent_child (k : QuadKey) (c : ascii) :
  constructed k -> parent (child k c) = OK k.
Proof.
  intros [Hv Hl]%constructed_inv. unfold parent, child. cbn [key].
  rewrite slice_to_drop_last, QuadKey_init_valid by assumption.
  destruct k; simpl in *; now subst.
Qed.

(** C6.  For a QuadKey [k] of level below 23, [k.children()] is the list of
    the four QuadKeys whose keys are [k]'s key followed by '0', '1', '2' and
    '3'; they are pairwise distinct, and the parent of each is [k].  For a
    QuadKey of level 23 or more, [k.children()] is the empty list. *)
Theorem children_spec (k : QuadKey) :
  constructed k ->
  (level k < 23 ->
   children k = OK [child k "0"; child k "1"; child k "2"; child k "3"] /\
   NoDup (map key [child k "0"; child k "1"; child k "2"; child k "3"]) /\
   forall c, In c [child k "0"; child k "1"; child k "2"; child k "3"] ->
     constructed c /\
     exists p, parent c = OK p /\ QuadKey_eq p k = true /\ p = k) /\
  (level k >= 23 -> children k = OK []).
Proof.
  intros Hk. split.
  - intros Hlt. unfold children.
    destruct (Z.geb_spec (level k) 23) as [H|_]; [lia|].
    split; [|split].
    + cbn [comprehension]. change (str 0) with "0". change (str 1) with "1".
      change (str 2) with "2". change (str 3) with "3".
      now rewrite !QuadKey_init_child.
    + cbn [map child key].
      repeat (apply NoDup_cons_2;
              [rewrite ?elem_of_cons, elem_of_nil; intros H;
               repeat (destruct H as [H|H];
                       [apply append_inj_r in H; discriminate H|]);
               exact H|]).
      apply NoDup_nil_2.
    + intros c Hc.
      assert (Hd : exists d, is_key_digit d = true /\ c = child k d).
      { cbn [In] in Hc.
        destruct Hc as [<-|[<-|[<-|[<-|[]]]]];
          [exists "0"%char | exists "1"%char
          | exists "2"%char | exists "3"%char]; split; reflexivity. }
      destruct Hd as (d & Hd & ->). split.
      * eexists. now apply QuadKey_init_child.
      * exists k. split; [now apply parent_child|]. split; [|reflexivity].
        apply String.eqb_refl.
  - intros Hge. unfold children.
    destruct (Z.geb_spec (level k) 23) as [_|H]; [reflexivity | lia].
Qed.

Lemma children_spec_witness :
  let k := {| key := "12"; level := 2 |} in
  constructed k /\
  (level k < 23 ->
   children k = OK [child k "0"; child k "1"; child k "2"; child k "3"] /\
   NoDup (map key [child k "0"; child k "1"; child k "2"; child k "3"]) /\
   forall c, In c [child k "0"; child k "1"; child k "2"; child k "3"] ->
     constructed c /\
     exists p, parent c = OK p /\ QuadKey_eq p k = true /\ p = k) /\
  (level k >= 23 -> children k = OK []).
Proof.
  intros k.
  assert (Hk : constructed k) by (exists "12"; reflexivity).
  split; [exact Hk|]. exact (children_spec k Hk).
Defined.

(** ** Unwinding *)

Lemma prefixes_desc_length (s : string) (n : nat) :
  List.length (prefixes_desc s n) = n.
Proof. induction n as [|m IH]; simpl; [reflexivity | now rewrite IH]. Qed.

Lemma prefixes_desc_lookup (s : string) (n i : nat) :
  (i < n)%nat -> prefixes_desc s n !! i = Some (prefix_key s (n - i)).
Proof.
  revert i; induction n as [|m IH]; intros i Hi; [lia|].
  destruct i as [|i]; [reflexivity|].
  cbn [prefixes_desc lookup list_lookup]. rewrite IH by lia.
  now replace (S m - S i)%nat with (m - i)%nat by lia.
Qed.

Lemma QuadKey_init_slice (s : string) (m : nat) :
  valid_key s = true -> (m < String.length s)%nat ->
  QuadKey_init (slice_to s (Z.of_nat m + 1)) = OK (prefix_key s (S m)).
Proof.
  intros [Hlen Hd]%valid_key_spec Hm. unfold slice_to.
  destruct (Z.ltb_spec (Z.of_nat m + 1) 0) as [H|_]; [lia|].
  replace (Z.to_nat (Z.of_nat m + 1)) with (S m) by lia.
  assert (Hl : String.length (substring 0 (S m) s) = S m)
    by (rewrite length_substring_0; lia).
  rewrite QuadKey_init_valid.
  - unfold prefix_key, len. now rewrite Hl.
  - apply valid_key_spec. rewrite Hl.
    split; [lia | now apply all_key_digits_substring].
Qed.

Lemma unwind_comprehension (s : string) (n : nat) :
  valid_key s = true -> (n <= String.length s)%nat ->
  comprehension (fun l => QuadKey_init (slice_to s (l + 1)))
    (reversed_range n)
  = OK (prefixes_desc s n).
Proof.
  intros Hs. induction n as [|m IH]; intros Hn; [reflexivity|].
  cbn [reversed_range comprehension prefixes_desc].
  rewrite QuadKey_init_slice by (assumption || lia).
  cbn [mbind result_bind]. now rewrite IH by lia.
Qed.

(** C10.  For a QuadKey [k] of level [n], [k.unwind()] is the list of the [n]
    QuadKeys on the prefixes of [k]'s key of length [n], [n - 1], ..., 1, in
    this order: element [i] is the prefix of length [n - i], the first
    element is [k] itself and the last one has length 1. *)
Theorem unwind_spec (k : QuadKey) :
  constructed k ->
  let n := String.length (key k) in
  unwind k = OK (prefixes_desc (key k) n) /\
  List.length (prefixes_desc (key k) n) = n /\
  prefixes_desc (key k) n !! 0%nat = Some k /\
  forall i, (i < n)%nat ->
    prefixes_desc (key k) n !! i
    = Some {| key := substring 0 (n - i) (key k);
              level := Z.of_nat (n - i) |}.
Proof.
  intros Hk n. pose proof Hk as [Hv Hl]%constructed_inv.
  split; [|split; [|split]].
  - unfold unwind. now apply unwind_comprehension.
  - apply prefixes_desc_length.
  - assert (Hn : (0 < n)%nat)
      by (apply valid_key_spec in Hv; unfold n; lia).
    rewrite prefixes_desc_lookup by exact Hn.
    unfold prefix_key. rewrite Nat.sub_0_r. unfold n.
    rewrite substring_0_length. f_equal.
    destruct k; simpl in *. now subst.
  - intros i Hi. now apply prefixes_desc_lookup.
Qed.

Lemma unwind_spec_witness :
  let k := {| key := "123"; level := 3 |} in
  constructed k /\
  unwind k = OK [ {| key := "123"; level := 3 |};
                  {| key := "12"; level := 2 |};
                  {| key := "1"; level := 1 |} ] /\
  List.length (prefixes_desc "123" 3) = 3%nat /\
  prefixes_desc "123" 3 !! 0%nat = Some k /\
  forall i, (i < 3)%nat ->
    prefixes_desc "123" 3 !! i
    = Some {| key := substring 0 (3 - i) "123";
              level := Z.of_nat (3 - i) |}.
Proof.
  intros k.
  assert (Hk : constructed k) by (exists "123"; reflexivity).
  split; [exact Hk|]. exact (unwind_spec k Hk).
Defined.

(** ** Difference *)

(** C8.  For QuadKeys [a] and [b] of different levels, [a.difference(b)]
    returns no value: running the generator fails on its [assert], before
    anything is yielded, whatever the fuel. *)
Theorem difference_level_mismatch (fuel : nat) (a b : QuadKey) :
  level a <> level b ->
  xdifference fuel a b = Some ([], Raise AssertionError) /\
  difference fuel a b = Some (Raise AssertionError).
Proof.
  intros Hne. unfold difference, xdifference.
  destruct (Z.eqb_spec (level a) (level b)) as [E|_]; [contradiction|].
  split; reflexivity.
Qed.

Lemma difference_level_mismatch_witness :
  let a := {| key := "21"; level := 2 |} in
  let b := {| key := "1"; level := 1 |} in
  level a <> level b /\
  xdifference 0 a b = Some ([], Raise AssertionError) /\
  difference 0 a b = Some (Raise AssertionError).
Proof.
  intros a b.
  assert (Hne : level a <> level b) by (simpl; lia).
  split; [exact Hne|]. exact (difference_level_mismatch 0 a b Hne).
Defined.

Lemma inner_while_column (c : corners) (lvl x : Z) :
  1 <= lvl <= 23 ->
  forall (n : nat) (y : Z) (fuel : nat),
    (n < fuel)%nat ->
    (forall j, (j < n)%nat ->
       inner_test c (x, y + step c * Z.of_nat j) = true) ->
    inner_test c (x, y + step c * Z.of_nat n) = false ->
    inner_while fuel c lvl (x, y)
    = Some (map (tile_key lvl) (column x y (step c) n),
            OK (x, y + step c * Z.of_nat n)).
Proof.
  intros Hlvl. induction n as [|n IH]; intros y fuel Hfuel Hin Hout;
    (destruct fuel as [|fuel]; [lia|]); cbn [inner_while].
  - rewrite Z.mul_0_r, Z.add_0_r in Hout |- *. now rewrite Hout.
  - pose proof (Hin 0%nat ltac:(lia)) as H0.
    rewrite Z.mul_0_r, Z.add_0_r in H0. rewrite H0.
    rewrite from_tile_OK by assumption. cbn [fst snd]. fold (step c).
    assert (Hshift : forall j : nat,
               y + step c + step c * Z.of_nat j
               = y + step c * Z.of_nat (S j)) by (intros; lia).
    rewrite (IH (y + step c) fuel); [| lia | |].
    + cbn [column map]. now rewrite Hshift.
    + intros j Hj. rewrite Hshift. apply Hin. lia.
    + now rewrite Hshift.
Qed.

Lemma outer_while_grid (c : corners) (lvl : Z) (bound start : tile) (n : nat) :
  1 <= lvl <= 23 ->
  pick (sw c) (nw c) = OK bound ->
  pick (ne c) (se c) = OK start ->
  (forall x j, (j < n)%nat ->
     inner_test c (x, snd start + step c * Z.of_nat j) = true) ->
  (forall x, inner_test c (x, snd start + step c * Z.of_nat n) = false) ->
  forall (m : nat) (x : Z) (fuel : nat),
    (m + n + 1 <= fuel)%nat ->
    x = fst bound + Z.of_nat m - 1 ->
    outer_while fuel c lvl (x, snd start)
    = Some (map (tile_key lvl) (grid x (snd start) (step c) n m), OK tt).
Proof.
  intros Hlvl Hbound Hstart Hin Hout.
  induction m as [|m IH]; intros x fuel Hfuel Hx;
    (destruct fuel as [|fuel]; [lia|]); cbn [outer_while];
    rewrite Hbound; cbn [fst snd].
  - destruct (Z.geb_spec x (fst bound)) as [H|_]; [lia | reflexivity].
  - destruct (Z.geb_spec x (fst bound)) as [_|H]; [|lia].
    rewrite (inner_while_column c lvl x Hlvl n) by (auto; lia).
    rewrite Hstart. cbn [fst snd].
    rewrite (IH (x - 1) fuel) by lia.
    cbn [grid]. now rewrite map_app.
Qed.

(** Deciding a test of the inner loop on corners that are known. *)
Ltac inner_test_arith :=
  intros; unfold inner_test, step; cbn [sw nw truthy fst snd orb];
  rewrite ?orb_false_r, ?Z.geb_leb;
  first [apply Z.leb_le | apply Z.leb_gt]; lia.

Lemma xdifference_grid (a b : QuadKey) (fuel : nat) (ax ay bx by_ : Z) :
  level a = level b ->
  1 <= level a <= 23 ->
  fst (to_tile a) = (ax, ay) ->
  fst (to_tile b) = (bx, by_) ->
  (Z.to_nat (Z.abs (ax - bx) + Z.abs (ay - by_) + 3) <= fuel)%nat ->
  exists y0 d,
    (d = 1 /\ y0 = Z.min ay by_ \/ d = -1 /\ y0 = Z.max ay by_) /\
    xdifference fuel a b
    = Some (map (tile_key (level a))
              (grid (Z.max ax bx) y0 d
                 (Z.to_nat (Z.abs (ay - by_) + 1))
                 (Z.to_nat (Z.abs (ax - bx) + 1))),
            OK tt).
Proof.
  intros Hlev Hlvl Ha Hb Hfuel. unfold xdifference.
  rewrite <- Hlev, Z.eqb_refl, Ha, Hb. unfold classify. cbn [fst snd].
  set (n := Z.to_nat (Z.abs (ay - by_) + 1)).
  set (m := Z.to_nat (Z.abs (ax - bx) + 1)).
  destruct (Z.geb_spec ax bx) as [Hx1|Hx1];
    destruct (Z.leb_spec ay by_) as [Hy1|Hy1]; cbn [andb].
  - (* ne, sw = self_tile, to_tile *)
    exists ay, 1. split; [left; lia|].
    replace (Z.max ax bx) with ax by lia.
    apply (outer_while_grid
             (mkCorners None (Some (bx, by_)) (Some (ax, ay)) None)
             (level a) (bx, by_) (ax, ay) n Hlvl eq_refl eq_refl);
      [inner_test_arith | inner_test_arith | lia | cbn [fst]; lia].
  - destruct (Z.leb_spec ax bx) as [Hx2|Hx2];
      destruct (Z.geb_spec ay by_) as [Hy2|Hy2]; cbn [andb]; try lia.
    + (* sw, ne = self_tile, to_tile *)
      exists by_, 1. split; [left; lia|].
      replace (Z.max ax bx) with bx by lia.
      apply (outer_while_grid
               (mkCorners None (Some (ax, ay)) (Some (bx, by_)) None)
               (level a) (ax, ay) (bx, by_) n Hlvl eq_refl eq_refl);
        [inner_test_arith | inner_test_arith | lia | cbn [fst]; lia].
    + (* se, nw = self_tile, to_tile *)
      exists ay, (-1). split; [right; lia|].
      replace (Z.max ax bx) with ax by lia.
      apply (outer_while_grid
               (mkCorners (Some (ax, ay)) None None (Some (bx, by_)))
               (level a) (bx, by_) (ax, ay) n Hlvl eq_refl eq_refl);
        [inner_test_arith | inner_test_arith | lia | cbn [fst]; lia].
  - destruct (Z.leb_spec ax bx) as [Hx2|Hx2]; [|lia].
    destruct (Z.geb_spec ay by_) as [Hy2|Hy2]; cbn [andb].
    + (* sw, ne = self_tile, to_tile, on equal ordinates *)
      exists by_, 1. split; [left; lia|].
      replace (Z.max ax bx) with bx by lia.
      apply (outer_while_grid
               (mkCorners None (Some (ax, ay)) (Some (bx, by_)) None)
               (level a) (ax, ay) (bx, by_) n Hlvl eq_refl eq_refl);
        [inner_test_arith | inner_test_arith | lia | cbn [fst]; lia].
    + (* nw, se = self_tile, to_tile *)
      exists by_, (-1). split; [right; lia|].
      replace (Z.max ax bx) with bx by lia.
      apply (outer_while_grid
               (mkCorners (Some (bx, by_)) None None (Some (ax, ay)))
               (level a) (ax, ay) (bx, by_) n Hlvl eq_refl eq_refl);
        [inner_test_arith | inner_test_arith | lia | cbn [fst]; lia].
  - destruct (Z.leb_spec ax bx) as [Hx2|Hx2];
      destruct (Z.geb_spec ay by_) as [Hy2|Hy2]; cbn [andb]; try lia.
    (* sw, ne = self_tile, to_tile *)
    exists by_, 1. split; [left; lia|].
    replace (Z.max ax bx) with bx by lia.
    apply (outer_while_grid
             (mkCorners None (Some (ax, ay)) (Some (bx, by_)) None)
             (level a) (ax, ay) (bx, by_) n Hlvl eq_refl eq_refl);
      [inner_test_arith | inner_test_arith | lia | cbn [fst]; lia].
Qed.

Lemma column_length (x y d : Z) (n : nat) :
  List.length (column x y d n) = n.
Proof.
  revert y; induction n as [|n IH]; intros y; simpl;
    [reflexivity | now rewrite IH].
Qed.

Lemma grid_length (x y d : Z) (n m : nat) :
  List.length (grid x y d n m) = (m * n)%nat.
Proof.
  revert x; induction m as [|m IH]; intros x; simpl; [reflexivity|].
  now rewrite length_app, column_length, IH.
Qed.

Lemma elem_of_column (x y d : Z) (n : nat) (t : tile) :
  t ∈ column x y d n <->
  exists j, (j < n)%nat /\ t = (x, y + d * Z.of_nat j).
Proof.
  revert y; induction n as [|n IH]; intros y; cbn [column].
  - rewrite elem_of_nil. split; [intros [] | intros (j & Hj & _); lia].
  - rewrite elem_of_cons, IH. split.
    + intros [->|(j & Hj & ->)].
      * exists 0%nat. split; [lia|]. f_equal. lia.
      * exists (S j). split; [lia|]. f_equal. lia.
    + intros ([|j] & Hj & ->).
      * left. f_equal. lia.
      * right. exists j. split; [lia|]. f_equal. lia.
Qed.

Lemma elem_of_grid (x y d : Z) (n m : nat) (t : tile) :
  t ∈ grid x y d n m <->
  exists i j, (i < m)%nat /\ (j < n)%nat /\
              t = (x - Z.of_nat i, y + d * Z.of_nat j).
Proof.
  revert x; induction m as [|m IH]; intros x; cbn [grid].
  - rewrite elem_of_nil. split; [intros [] | intros (i & j & Hi & _); lia].
  - rewrite elem_of_app, elem_of_column, IH. split.
    + intros [(j & Hj & ->)|(i & j & Hi & Hj & ->)].
      * exists 0%nat, j. repeat split; try lia. f_equal. lia.
      * exists (S i), j. repeat split; try lia. f_equal. lia.
    + intros ([|i] & j & Hi & Hj & ->).
      * left. exists j. split; [lia|]. f_equal. lia.
      * right. exists i, j. repeat split; try lia. f_equal. lia.
Qed.

Lemma column_NoDup (x y d : Z) (n : nat) :
  d <> 0 -> NoDup (column x y d n).
Proof.
  intros Hd. revert y; induction n as [|n IH]; intros y; cbn [column].
  - apply NoDup_nil_2.
  - apply NoDup_cons_2; [|apply IH].
    intros (j & Hj & [= E])%elem_of_column. nia.
Qed.

Lemma grid_NoDup (x y d : Z) (n m : nat) :
  d <> 0 -> NoDup (grid x y d n m).
Proof.
  intros Hd. revert x; induction m as [|m IH]; intros x; cbn [grid].
  - apply NoDup_nil_2.
  - apply NoDup_app. split; [now apply column_NoDup|]. split; [|apply IH].
    intros t (j & Hj & ->)%elem_of_column
             (i & j' & Hi & Hj' & [= E _])%elem_of_grid. lia.
Qed.

(** The tiles of the closed rectangle spanned by [(ax, ay)] and [(bx, by_)]
    are the tiles of the grid that [xdifference] walks through. *)
Lemma elem_of_grid_rectangle (ax ay bx by_ y0 d x y : Z) :
  d = 1 /\ y0 = Z.min ay by_ \/ d = -1 /\ y0 = Z.max ay by_ ->
  (x, y) ∈ grid (Z.max ax bx) y0 d
             (Z.to_nat (Z.abs (ay - by_) + 1))
             (Z.to_nat (Z.abs (ax - bx) + 1)) <->
  Z.min ax bx <= x <= Z.max ax bx /\ Z.min ay by_ <= y <= Z.max ay by_.
Proof.
  intros Hd. rewrite elem_of_grid. split.
  - intros (i & j & Hi & Hj & [= -> ->]).
    destruct Hd as [[-> ->]|[-> ->]]; lia.
  - intros [Hx Hy]. exists (Z.to_nat (Z.max ax bx - x)).
    destruct Hd as [[-> ->]|[-> ->]].
    + exists (Z.to_nat (y - Z.min ay by_)).
      repeat split; try lia. f_equal; lia.
    + exists (Z.to_nat (Z.max ay by_ - y)).
      repeat split; try lia. f_equal; lia.
Qed.

Lemma to_tile_tile_key (L x y : Z) :
  0 <= L -> 0 <= x < 2 ^ L -> 0 <= y < 2 ^ L ->
  fst (to_tile (tile_key L (x, y))) = (x, y).
Proof.
  intros HL Hx Hy. unfold to_tile, tile_key. cbn [key].
  rewrite quadkey_to_tile_encode by assumption. cbn [fst].
  now rewrite !Z.mod_small by assumption.
Qed.

Lemma map_to_tile_tile_key (L : Z) (ts : list tile) :
  0 <= L ->
  (forall x y, (x, y) ∈ ts -> 0 <= x < 2 ^ L /\ 0 <= y < 2 ^ L) ->
  map (fun q => fst (to_tile q)) (map (tile_key L) ts) = ts.
Proof.
  intros HL. induction ts as [|[x y] ts IH]; intros Hts; [reflexivity|].
  cbn [map]. rewrite to_tile_tile_key, IH; try assumption.
  - reflexivity.
  - intros x' y' H. apply Hts. now right.
  - apply (Hts x y). now left.
  - apply (Hts x y). now left.
Qed.

(** C1.  For QuadKeys [a] and [b] of one level, on the tiles [(ax, ay)] and
    [(bx, by_)], the generator [xdifference(a, b)] runs to its end without an
    exception, and so [a.difference(b)] returns the list of what it yields,
    once the fuel covers the [|ax - bx| + |ay - by_| + 3] loop tests.  The list
    has [(|ax - bx| + 1) * (|ay - by_| + 1)] elements, each a QuadKey of the
    level of [a]; converted back to tiles they are pairwise distinct and are
    exactly the tiles [(x, y)] of the closed rectangle spanned by the two
    tiles, both corners included. *)
Theorem difference_rectangle
  (a b : QuadKey) (fuel : nat) (ax ay bx by_ : Z) :
  constructed a -> constructed b ->
  level a = level b ->
  fst (to_tile a) = (ax, ay) ->
  fst (to_tile b) = (bx, by_) ->
  (Z.to_nat (Z.abs (ax - bx) + Z.abs (ay - by_) + 3) <= fuel)%nat ->
  exists l,
    xdifference fuel a b = Some (l, OK tt) /\
    difference fuel a b = Some (OK l) /\
    Z.of_nat (List.length l)
    = (Z.abs (ax - bx) + 1) * (Z.abs (ay - by_) + 1) /\
    (forall q, q ∈ l -> constructed q /\ level q = level a) /\
    (forall x y,
       (x, y) ∈ map (fun q => fst (to_tile q)) l <->
       Z.min ax bx <= x <= Z.max ax bx /\
       Z.min ay by_ <= y <= Z.max ay by_) /\
    NoDup (map (fun q => fst (to_tile q)) l).
Proof.
  intros Ha Hb Hlev Hta Htb Hfuel.
  pose proof Ha as [Hva Hla]%constructed_inv.
  pose proof Hb as [Hvb Hlb]%constructed_inv.
  pose proof Hva as [Hlena Hda]%valid_key_spec.
  pose proof Hvb as [_ Hdb]%valid_key_spec.
  assert (Hlvl : 1 <= level a <= 23) by (rewrite Hla; unfold len; lia).
  pose proof (quadkey_to_tile_range _ Hda) as Hra.
  pose proof (quadkey_to_tile_range _ Hdb) as Hrb.
  unfold to_tile in Hta, Htb. rewrite Hta in Hra. rewrite Htb in Hrb.
  rewrite <- Hla in Hra. rewrite <- Hlb, <- Hlev in Hrb. cbn [fst snd] in *.
  destruct (xdifference_grid a b fuel ax ay bx by_ Hlev Hlvl Hta Htb Hfuel)
    as (y0 & d & Hd & Hrun).
  set (G := grid (Z.max ax bx) y0 d
              (Z.to_nat (Z.abs (ay - by_) + 1))
              (Z.to_nat (Z.abs (ax - bx) + 1))) in *.
  assert (Htiles : map (fun q => fst (to_tile q)) (map (tile_key (level a)) G)
                   = G).
  { apply map_to_tile_tile_key; [lia|]. intros x y Hxy.
    apply (elem_of_grid_rectangle ax ay bx by_ y0 d x y Hd) in Hxy. lia. }
  exists (map (tile_key (level a)) G). split; [exact Hrun|].
  split; [unfold difference; now rewrite Hrun|].
  split; [|split; [|split]].
  - rewrite length_map. unfold G. rewrite grid_length. lia.
  - intros q Hq. apply list_elem_of_In, in_map_iff in Hq as (t & <- & _).
    split; [|reflexivity].
    exists (tile_to_quadkey t (level a)). now apply from_tile_OK.
  - intros x y. rewrite Htiles.
    now apply elem_of_grid_rectangle.
  - rewrite Htiles. apply grid_NoDup. lia.
Qed.

Lemma difference_rectangle_witness :
  let a := {| key := "21"; level := 2 |} in
  let b := {| key := "12"; level := 2 |} in
  (constructed a /\ constructed b /\ level a = level b /\
   fst (to_tile a) = (1, 2) /\ fst (to_tile b) = (2, 1) /\
   (Z.to_nat (Z.abs (1 - 2) + Z.abs (2 - 1) + 3) <= 5)%nat) /\
  exists l,
    xdifference 5 a b = Some (l, OK tt) /\
    difference 5 a b = Some (OK l) /\
    Z.of_nat (List.length l) = (Z.abs (1 - 2) + 1) * (Z.abs (2 - 1) + 1) /\
    (forall q, q ∈ l -> constructed q /\ level q = level a) /\
    (forall x y,
       (x, y) ∈ map (fun q => fst (to_tile q)) l <->
       Z.min 1 2 <= x <= Z.max 1 2 /\ Z.min 2 1 <= y <= Z.max 2 1) /\
    NoDup (map (fun q => fst (to_tile q)) l).
Proof.
  intros a b.
  assert (Ha : constructed a) by (exists "21"; reflexivity).
  assert (Hb : constructed b) by (exists "12"; reflexivity).
  assert (Hfuel : (Z.to_nat (Z.abs (1 - 2) + Z.abs (2 - 1) + 3) <= 5)%nat)
    by (vm_compute; lia).
  split; [repeat split; assumption|].
  exact (difference_rectangle a b 5 1 2 2 1 Ha Hb eq_refl eq_refl eq_refl
           Hfuel).
Defined.

(** ** Neighbours *)

(** [perms] holds the eight offsets of {-1, 0, 1} x {-1, 0, 1} other than
    (0, 0). *)
Lemma elem_of_perms (dx dy : Z) :
  (dx, dy) ∈ perms <->
  -1 <= dx <= 1 /\ -1 <= dy <= 1 /\ (dx <> 0 \/ dy <> 0).
Proof.
  unfold perms. rewrite !elem_of_cons, elem_of_nil. split.
  - intros H. repeat (destruct H as [[= -> ->]|H]; [lia|]). destruct H.
  - intros (Hx & Hy & Hne).
    assert (Cx : dx = -1 \/ dx = 0 \/ dx = 1) by lia.
    assert (Cy : dy = -1 \/ dy = 0 \/ dy = 1) by lia.
    destruct Cx as [-> | [-> | ->]], Cy as [-> | [-> | ->]]; try lia; tauto.
Qed.

Lemma elem_of_nearby_tiles (t t' : tile) :
  t' ∈ nearby_tiles t <->
  exists dx dy,
    (-1 <= dx <= 1 /\ -1 <= dy <= 1 /\ (dx <> 0 \/ dy <> 0)) /\
    t' = (Z.abs (fst t + dx), Z.abs (snd t + dy)).
Proof.
  unfold nearby_tiles.
  rewrite elem_of_list_to_set, list_elem_of_In, in_map_iff. split.
  - intros ([dx dy] & <- & Hp%list_elem_of_In%elem_of_perms).
    now exists dx, dy.
  - intros (dx & dy & Hp%elem_of_perms & ->).
    exists (dx, dy). split; [reflexivity | now apply list_elem_of_In].
Qed.

Lemma nearby_tiles_size (t : tile) :
  (List.length (elements (nearby_tiles t)) <= 8)%nat.
Proof.
  change 8%nat with
    (List.length
       (map (fun perm => (Z.abs (fst t + fst perm), Z.abs (snd t + snd perm)))
          perms)).
  apply submseteq_length, NoDup_submseteq; [apply NoDup_elements|].
  intros t' Ht'%elem_of_elements. unfold nearby_tiles in Ht'.
  now apply elem_of_list_to_set in Ht'.
Qed.

(** The claim C5 as it is worded, refuted on the code: the elements that
    [nearby] returns are not always distinct.  The QuadKey "1" is the tile
    (1, 0) of level 1; its neighbour tiles (0, 1) and (2, 1) differ, and so
    do (0, 0) and (2, 0), but at level 1 the abscissae 0 and 2 give the same
    key digit. *)
Lemma nearby_keys_not_distinct :
  let k := {| key := "1"; level := 1 |} in
  QuadKey_init "1" = OK k /\ ~ NoDup (nearby k).
Proof.
  intros k. split; [reflexivity|]. intros H.
  assert (E : nearby k = ["2"; "0"; "0"; "3"; "2"]) by (vm_compute; reflexivity).
  rewrite E in H.
  pose proof (NoDup_lookup _ 0%nat 4%nat "2" H eq_refl eq_refl) as C.
  discriminate C.
Qed.

(** Two neighbour coordinates [|t + d|] and [|t + d'|] that agree modulo a
    grid size of 4 or more are the same: they lie in [0, P], at most 2
    apart. *)
Lemma abs_offset_mod_inj (P t d d' : Z) :
  4 <= P -> 0 <= t < P -> -1 <= d <= 1 -> -1 <= d' <= 1 ->
  Z.abs (t + d) mod P = Z.abs (t + d') mod P ->
  Z.abs (t + d) = Z.abs (t + d').
Proof.
  intros HP Ht Hd Hd' E.
  destruct (Z.eq_dec (Z.abs (t + d)) P) as [H1|H1];
    destruct (Z.eq_dec (Z.abs (t + d')) P) as [H2|H2].
  - congruence.
  - rewrite H1, Z.mod_same, Z.mod_small in E by lia. lia.
  - rewrite H2, Z.mod_same, Z.mod_small in E by lia. lia.
  - rewrite !Z.mod_small in E by lia. exact E.
Qed.

(** From level 2 on, distinct neighbour tiles have distinct keys. *)
Lemma nearby_tiles_keys_NoDup (L tx ty : Z) :
  2 <= L -> 0 <= tx < 2 ^ L -> 0 <= ty < 2 ^ L ->
  NoDup (map (fun t => tile_to_quadkey t L) (elements (nearby_tiles (tx, ty)))).
Proof.
  intros HL Hx Hy.
  assert (HP : 4 <= 2 ^ L).
  { change 4 with (2 ^ 2). apply Z.pow_le_mono_r; lia. }
  change (NoDup ((fun t => tile_to_quadkey t L)
                   <$> elements (nearby_tiles (tx, ty)))).
  apply NoDup_fmap_2_strong; [|apply NoDup_elements].
  intros t t' Hin Hin' E.
  apply elem_of_elements, elem_of_nearby_tiles in Hin
    as (dx & dy & (Hdx & Hdy & _) & ->).
  apply elem_of_elements, elem_of_nearby_tiles in Hin'
    as (dx' & dy' & (Hdx' & Hdy' & _) & ->).
  cbn [fst snd] in *.
  apply (f_equal quadkey_to_tile) in E.
  rewrite !quadkey_to_tile_encode in E by lia.
  injection E as Ex Ey.
  apply abs_offset_mod_inj in Ex; [|lia..].
  apply abs_offset_mod_inj in Ey; [|lia..].
  now rewrite Ex, Ey.
Qed.

(** C5, amended.  For a QuadKey [k] on the tile [(tx, ty)], [k.nearby()] has
    at most 8 elements; every element is a valid key of the length of [k]'s
    key, so that [QuadKey] of it is a QuadKey of the level of [k]; the
    elements are the keys, at the level of [k], of the pairwise distinct
    tiles [(|tx + dx|, |ty + dy|)] for the eight offsets [(dx, dy)] of
    {-1, 0, 1} x {-1, 0, 1} other than (0, 0), one key per tile; and when the
    level of [k] is 2 or more, all the returned elements are distinct. *)
Theorem nearby_spec (k : QuadKey) (tx ty : Z) :
  constructed k ->
  fst (to_tile k) = (tx, ty) ->
  (List.length (nearby k) <= 8)%nat /\
  (forall s, s ∈ nearby k ->
     valid_key s = true /\ len s = level k /\
     QuadKey_init s = OK {| key := s; level := level k |}) /\
  (exists tiles : list tile,
    nearby k = map (fun t => tile_to_quadkey t (level k)) tiles /\
    NoDup tiles /\
    forall t, t ∈ tiles <->
      exists dx dy,
        (-1 <= dx <= 1 /\ -1 <= dy <= 1 /\ (dx <> 0 \/ dy <> 0)) /\
        t = (Z.abs (tx + dx), Z.abs (ty + dy))) /\
  (2 <= level k -> NoDup (nearby k)).
Proof.
  intros [Hv Hl]%constructed_inv Ht.
  pose proof Hv as [Hlen Hdig]%valid_key_spec.
  assert (Hlvl : 1 <= level k <= 23) by (rewrite Hl; unfold len; lia).
  pose proof (quadkey_to_tile_range _ Hdig) as Hr.
  unfold to_tile in Ht. rewrite Ht, <- Hl in Hr. cbn [fst snd] in Hr.
  unfold quadkey_to_tile in Ht. cbn [fst] in Ht.
  assert (E : nearby k
              = map (fun t => tile_to_quadkey t (level k))
                  (elements (nearby_tiles (tx, ty)))).
  { unfold nearby, quadkey_to_tile. now rewrite Ht, <- Hl. }
  split; [|split; [|split]].
  - rewrite E, length_map. apply nearby_tiles_size.
  - intros s Hs. rewrite E in Hs.
    apply list_elem_of_In, in_map_iff in Hs as (t & <- & _).
    pose proof (tile_to_quadkey_valid t (level k) Hlvl) as Hvt.
    assert (Hlt : len (tile_to_quadkey t (level k)) = level k)
      by (rewrite tile_to_quadkey_length; lia).
    split; [exact Hvt|]. split; [exact Hlt|].
    now rewrite QuadKey_init_valid, Hlt.
  - exists (elements (nearby_tiles (tx, ty))).
    split; [exact E|]. split; [apply NoDup_elements|].
    intros t. rewrite elem_of_elements. apply elem_of_nearby_tiles.
  - intros H2. rewrite E. apply nearby_tiles_keys_NoDup; [exact H2 | lia..].
Qed.

Lemma nearby_spec_witness :
  let k := {| key := "11"; level := 2 |} in
  (constructed k /\ fst (to_tile k) = (3, 0)) /\
  (List.length (nearby k) <= 8)%nat /\
  (forall s, s ∈ nearby k ->
     valid_key s = true /\ len s = level k /\
     QuadKey_init s = OK {| key := s; level := level k |}) /\
  (exists tiles : list tile,
    nearby k = map (fun t => tile_to_quadkey t (level k)) tiles /\
    NoDup tiles /\
    forall t, t ∈ tiles <->
      exists dx dy,
        (-1 <= dx <= 1 /\ -1 <= dy <= 1 /\ (dx <> 0 \/ dy <> 0)) /\
        t = (Z.abs (3 + dx), Z.abs (0 + dy))) /\
  (2 <= level k -> NoDup (nearby k)).
Proof.
  intros k.
  assert (Hk : constructed k) by (exists "11"; reflexivity).
  split; [split; [exact Hk | reflexivity]|].
  exact (nearby_spec k 3 0 Hk eq_refl).
Defined.

(** ** Construction from a geographic point *)

Section FromGeoProps.

Variable geo_to_pixel : float * float -> Z -> Z * Z.

(** C9.  For a level in [1, 23], [from_geo((lat, lon), level)] fails with
    [InvalidCoordinate] when [lat] is not within [-90, 90] or [lon] is not
    within [-180, 180]; and when both are within range it returns the
    QuadKey, of that level, of the tile that holds the pixel the point is
    projected to. *)
Theorem from_geo_spec (lat lon : float) (lvl : Z) :
  1 <= lvl <= 23 ->
  (((-90 <=? lat) && (lat <=? 90))%float = false \/
   ((-180 <=? lon) && (lon <=? 180))%float = false ->
   from_geo geo_to_pixel (lat, lon) lvl = Raise InvalidCoordinate) /\
  (((-90 <=? lat) && (lat <=? 90))%float = true ->
   ((-180 <=? lon) && (lon <=? 180))%float = true ->
   from_geo geo_to_pixel (lat, lon) lvl
   = OK {| key := tile_to_quadkey
                    (pixel_to_tile (geo_to_pixel (lat, lon) lvl)) lvl;
           level := lvl |}).
Proof.
  intros Hlvl. unfold from_geo, precondition, valid_geo. cbn [fst snd].
  rewrite <- !andb_assoc, (andb_assoc (-90 <=? lat)%float).
  split.
  - intros [H|H]; rewrite H; [reflexivity|]. now rewrite andb_false_r.
  - intros -> ->. cbn [andb]. now apply from_tile_OK.
Qed.

End FromGeoProps.

Lemma from_geo_spec_witness :
  let proj := fun (_ : float * float) (_ : Z) => (1000, 700) in
  1 <= 3 <= 23 /\
  (((-90 <=? 91) && (91 <=? 90))%float = false \/
   ((-180 <=? 10) && (10 <=? 180))%float = false ->
   from_geo proj (91%float, 10%float) 3 = Raise InvalidCoordinate) /\
  (((-90 <=? 91) && (91 <=? 90))%float = true ->
   ((-180 <=? 10) && (10 <=? 180))%float = true ->
   from_geo proj (91%float, 10%float) 3
   = OK {| key := tile_to_quadkey
                    (pixel_to_tile (proj (91%float, 10%float) 3)) 3;
           level := 3 |}).
Proof.
  intros proj.
  assert (Hlvl : 1 <= 3 <= 23) by lia.
  split; [exact Hlvl|].
  exact (from_geo_spec proj 91%float 10%float 3 Hlvl).
Defined.

(** * Further properties of the module *)

(** ** The ancestor relation *)

Lemma substring_0_substring (n m : nat) (s : string) :
  (n <= m)%nat -> substring 0 n (substring 0 m s) = substring 0 n s.
Proof.
  revert n m; induction s as [|c s IH]; intros [|n] [|m] H; simpl;
    try reflexivity; try lia.
  now rewrite IH by lia.
Qed.

Lemma is_ancestor_Some_iff (a b : QuadKey) (d : Z) :
  is_ancestor a b = Some d <->
  level b < level a /\
  substring 0 (String.length (key b)) (key a) = key b /\
  d = level a - level b.
Proof.
  unfold is_ancestor. rewrite slice_to_len.
  destruct (Z.leb_spec (level a) (level b)) as [Hle|Hgt]; cbn [orb].
  - split; [discriminate | lia].
  - destruct (String.eqb_spec
                (substring 0 (String.length (key b)) (key a)) (key b))
      as [E|E]; cbn [negb].
    + split; [intros [= <-]; auto | intros (_ & _ & ->); reflexivity].
    + split; [discriminate | intros (_ & E' & _); contradiction].
Qed.

(** X1.  An ancestor is never a descendant: when [a.is_ancestor(b)] is a
    number [d], this number is at least 1 (so it is told apart from a level
    difference of zero), and [b.is_ancestor(a)], which is also
    [a.is_descendent(b)], is [None]. *)
Theorem is_ancestor_asymmetric (a b : QuadKey) (d : Z) :
  is_ancestor a b = Some d ->
  1 <= d /\ is_ancestor b a = None /\ is_descendent a b = None.
Proof.
  intros (Hlt & _ & ->)%is_ancestor_Some_iff.
  assert (E : is_ancestor b a = None).
  { unfold is_ancestor.
    destruct (Z.leb_spec (level b) (level a)) as [_|H]; [reflexivity | lia]. }
  split; [lia|]. split; exact E.
Qed.

Lemma is_ancestor_asymmetric_witness :
  let a := {| key := "12030"; level := 5 |} in
  let b := {| key := "120"; level := 3 |} in
  is_ancestor a b = Some 2 /\
  1 <= 2 /\ is_ancestor b a = None /\ is_descendent a b = None.
Proof.
  intros a b.
  assert (H : is_ancestor a b = Some 2) by reflexivity.
  split; [exact H|]. exact (is_ancestor_asymmetric a b 2 H).
Defined.

(** X2.  Ancestry composes and the level differences add up: when [b] is an
    ancestor of [a] at distance [d1] and [c] an ancestor of [b] at distance
    [d2], then [c] is an ancestor of [a] at distance [d1 + d2]. *)
Theorem is_ancestor_transitive (a b c : QuadKey) (d1 d2 : Z) :
  is_ancestor a b = Some d1 ->
  is_ancestor b c = Some d2 ->
  is_ancestor a c = Some (d1 + d2).
Proof.
  intros (Hab & Eab & ->)%is_ancestor_Some_iff
         (Hbc & Ebc & ->)%is_ancestor_Some_iff.
  apply is_ancestor_Some_iff. split; [lia|]. split; [|lia].
  assert (Hlen : (String.length (key c) <= String.length (key b))%nat).
  { rewrite <- Ebc at 1. rewrite length_substring_0. lia. }
  rewrite <- (substring_0_substring _ (String.length (key b))) by exact Hlen.
  now rewrite Eab.
Qed.

Lemma is_ancestor_transitive_witness :
  let a := {| key := "12030"; level := 5 |} in
  let b := {| key := "120"; level := 3 |} in
  let c := {| key := "1"; level := 1 |} in
  (is_ancestor a b = Some 2 /\ is_ancestor b c = Some 2) /\
  is_ancestor a c = Some (2 + 2).
Proof.
  intros a b c.
  assert (H1 : is_ancestor a b = Some 2) by reflexivity.
  assert (H2 : is_ancestor b c = Some 2) by reflexivity.
  split; [split; assumption|].
  exact (is_ancestor_transitive a b c 2 2 H1 H2).
Defined.

(** ** Parent *)

Lemma parent_key (k : QuadKey) :
  (1 <= String.length (key k))%nat ->
  slice_to (key k) (-1)
  = substring 0 (String.length (key k) - 1) (key k).
Proof.
  intros H. unfold slice_to. cbn [Z.ltb Z.compare]. f_equal. lia.
Qed.

(** X3.  [parent] at the top and below it: the QuadKey of a one-digit key
    has no parent, the call fails with [InvalidKey]; a QuadKey of level 2
    or more has a parent, which is a QuadKey one level up whose key is the
    key without its last digit, and which is its ancestor at distance 1. *)
Theorem parent_spec (k : QuadKey) :
  constructed k ->
  (level k = 1 -> parent k = Raise InvalidKey) /\
  (2 <= level k ->
   exists p, parent k = OK p /\ constructed p /\
             level p = level k - 1 /\
             key p = substring 0 (String.length (key k) - 1) (key k) /\
             is_ancestor k p = Some 1).
Proof.
  intros Hk. pose proof Hk as [Hv Hl]%constructed_inv.
  pose proof Hv as [Hlen Hd]%valid_key_spec. unfold len in Hl.
  unfold parent. rewrite parent_key by lia. split.
  - intros H1. replace (String.length (key k) - 1)%nat with 0%nat by lia.
    now destruct (key k).
  - intros H2.
    assert (E : QuadKey_init (substring 0 (String.length (key k) - 1) (key k))
                = OK (prefix_key (key k) (String.length (key k) - 1))).
    { replace (substring 0 (String.length (key k) - 1) (key k))
        with (slice_to (key k) (Z.of_nat (String.length (key k) - 2) + 1)).
      - rewrite QuadKey_init_slice by (assumption || lia).
        do 2 f_equal. lia.
      - unfold slice_to.
        destruct (Z.ltb_spec (Z.of_nat (String.length (key k) - 2) + 1) 0);
          [lia|]. f_equal. lia. }
    eexists. split; [exact E|].
    split; [eexists; exact E|]. cbn [prefix_key level key].
    split; [lia|]. split; [reflexivity|].
    apply is_ancestor_Some_iff. unfold prefix_key. cbn [level key].
    rewrite length_substring_0.
    replace (Nat.min (String.length (key k) - 1) (String.length (key k)))
      with (String.length (key k) - 1)%nat by lia.
    repeat split; lia.
Qed.

Lemma parent_spec_witness :
  let k := {| key := "12"; level := 2 |} in
  constructed k /\
  (level k = 1 -> parent k = Raise InvalidKey) /\
  (2 <= level k ->
   exists p, parent k = OK p /\ constructed p /\
             level p = level k - 1 /\
             key p = substring 0 (String.length (key k) - 1) (key k) /\
             is_ancestor k p = Some 1).
Proof.
  intros k.
  assert (Hk : constructed k) by (exists "12"; reflexivity).
  split; [exact Hk|]. exact (parent_spec k Hk).
Defined.

(** ** Unwinding, parents and ancestors *)

Lemma prefixes_desc_substring (s : string) (m j : nat) :
  (j <= m)%nat -> prefixes_desc (substring 0 m s) j = prefixes_desc s j.
Proof.
  induction j as [|j IH]; intros Hj; [reflexivity|].
  cbn [prefixes_desc]. unfold prefix_key.
  now rewrite substring_0_substring, IH by lia.
Qed.

Lemma unwind_prefixes (k : QuadKey) :
  constructed k ->
  unwind k = OK (prefixes_desc (key k) (String.length (key k))).
Proof.
  intros [Hv _]%constructed_inv. unfold unwind.
  now apply unwind_comprehension.
Qed.

(** X4.  [unwind] walks up through [parent]: for a QuadKey [k] of level 1,
    [k.unwind()] is [[k]]; for a QuadKey of level 2 or more, [k.parent()]
    succeeds and [k.unwind()] is [k] followed by the unwinding of the
    parent. *)
Theorem unwind_parent (k : QuadKey) :
  constructed k ->
  (level k = 1 -> unwind k = OK [k]) /\
  (2 <= level k ->
   exists p l, parent k = OK p /\ unwind p = OK l /\ unwind k = OK (k :: l)).
Proof.
  intros Hk. pose proof Hk as [Hv Hl]%constructed_inv.
  pose proof Hv as [Hlen Hd]%valid_key_spec. unfold len in Hl.
  rewrite (unwind_prefixes k Hk).
  assert (Ehead : prefix_key (key k) (String.length (key k)) = k).
  { unfold prefix_key. rewrite substring_0_length, <- Hl. now destruct k. }
  destruct (String.length (key k)) as [|m] eqn:En; [lia|].
  cbn [prefixes_desc]. rewrite Ehead. split.
  - intros H1. assert (m = 0)%nat as -> by lia. reflexivity.
  - intros H2.
    assert (Ep : parent k = OK (prefix_key (key k) m)).
    { unfold parent. rewrite parent_key by lia. rewrite En.
      replace (S m - 1)%nat with m by lia.
      destruct m as [|m']; [lia|].
      replace (substring 0 (S m') (key k))
        with (slice_to (key k) (Z.of_nat m' + 1)).
      - now rewrite QuadKey_init_slice by (assumption || lia).
      - unfold slice_to. destruct (Z.ltb_spec (Z.of_nat m' + 1) 0); [lia|].
        f_equal. lia. }
    exists (prefix_key (key k) m), (prefixes_desc (key k) m).
    split; [exact Ep|]. split; [|reflexivity].
    assert (Hp : constructed (prefix_key (key k) m)).
    { unfold parent in Ep. eexists. exact Ep. }
    rewrite (unwind_prefixes _ Hp). unfold prefix_key at 1 2. cbn [key].
    rewrite length_substring_0.
    replace (Nat.min m (String.length (key k))) with m by lia.
    now rewrite prefixes_desc_substring.
Qed.

Lemma unwind_parent_witness :
  let k := {| key := "123"; level := 3 |} in
  constructed k /\
  (level k = 1 -> unwind k = OK [k]) /\
  (2 <= level k ->
   exists p l, parent k = OK p /\ unwind p = OK l /\ unwind k = OK (k :: l)).
Proof.
  intros k.
  assert (Hk : constructed k) by (exists "123"; reflexivity).
  split; [exact Hk|]. exact (unwind_parent k Hk).
Defined.

(** X5.  The ancestors of a QuadKey are the elements of its unwinding past
    the first one, and the position is the level difference: element [i >= 1]
    of [k.unwind()] is an ancestor of [k] at distance [i], and a QuadKey [q]
    that is an ancestor of [k] at distance [d] is element [d] of
    [k.unwind()]. *)
Theorem unwind_is_ancestor (k : QuadKey) (l : list QuadKey) :
  constructed k ->
  unwind k = OK l ->
  (forall (i : nat) q, (1 <= i)%nat -> l !! i = Some q ->
     is_ancestor k q = Some (Z.of_nat i)) /\
  (forall q d, constructed q -> is_ancestor k q = Some d ->
     l !! Z.to_nat d = Some q).
Proof.
  intros Hk Hun. rewrite (unwind_prefixes k Hk) in Hun.
  injection Hun as <-.
  pose proof Hk as [Hv Hl]%constructed_inv.
  pose proof Hv as [Hlen Hd]%valid_key_spec. unfold len in Hl.
  set (n := String.length (key k)) in *.
  split.
  - intros i q Hi Hq.
    assert (Hin : (i < n)%nat).
    { apply lookup_lt_Some in Hq. now rewrite prefixes_desc_length in Hq. }
    rewrite prefixes_desc_lookup in Hq by exact Hin. injection Hq as <-.
    apply is_ancestor_Some_iff. unfold prefix_key. cbn [level key].
    rewrite length_substring_0. fold n.
    replace (Nat.min (n - i) n) with (n - i)%nat by lia.
    repeat split; lia.
  - intros q d [Hvq Hlq]%constructed_inv (Hlt & Epre & ->)%is_ancestor_Some_iff.
    pose proof Hvq as [Hlenq _]%valid_key_spec. unfold len in Hlq.
    rewrite prefixes_desc_lookup by lia. f_equal.
    replace (n - Z.to_nat (level k - level q))%nat
      with (String.length (key q)) by lia.
    unfold prefix_key. rewrite Epre.
    destruct q; simpl in *. now subst.
Qed.

Lemma unwind_is_ancestor_witness :
  let k := {| key := "123"; level := 3 |} in
  let l := [ {| key := "123"; level := 3 |}; {| key := "12"; level := 2 |};
             {| key := "1"; level := 1 |} ] in
  (constructed k /\ unwind k = OK l) /\
  (forall (i : nat) q, (1 <= i)%nat -> l !! i = Some q ->
     is_ancestor k q = Some (Z.of_nat i)) /\
  (forall q d, constructed q -> is_ancestor k q = Some d ->
     l !! Z.to_nat d = Some q).
Proof.
  intros k l.
  assert (Hk : constructed k) by (exists "123"; reflexivity).
  assert (Hl : unwind k = OK l) by reflexivity.
  split; [split; assumption|]. exact (unwind_is_ancestor k l Hk Hl).
Defined.

(** ** More on [xdifference] and [difference] *)

(** The corner variables do not depend on which of the two tiles is [self]. *)
Lemma classify_comm (s t : tile) : classify s t = classify t s.
Proof.
  destruct s as [sx sy], t as [tx ty]. unfold classify. cbn [fst snd].
  rewrite !Z.geb_leb.
  destruct (Z.leb_spec tx sx), (Z.leb_spec sx tx),
    (Z.leb_spec sy ty), (Z.leb_spec ty sy);
    cbn [andb]; try lia; try reflexivity;
    assert (sx = tx) by lia; assert (sy = ty) by lia; now subst.
Qed.

(** Whatever the two tiles, the [if]/[elif] chain takes one of its branches:
    the corners that the loops subscript are set. *)
Lemma classify_pick (s t : tile) :
  exists bound start,
    pick (sw (classify s t)) (nw (classify s t)) = OK bound /\
    pick (ne (classify s t)) (se (classify s t)) = OK start.
Proof.
  destruct s as [sx sy], t as [tx ty]. unfold classify. cbn [fst snd].
  rewrite !Z.geb_leb.
  destruct (Z.leb_spec tx sx), (Z.leb_spec sx tx),
    (Z.leb_spec sy ty), (Z.leb_spec ty sy);
    cbn [andb sw nw ne se pick]; try lia; eauto.
Qed.

(** X6.  [xdifference] and [difference] do not depend on the order of their
    two arguments: [a.difference(b)] and [b.difference(a)] give the same list
    in the same order, or fail alike, whatever the two QuadKeys. *)
Theorem xdifference_comm (fuel : nat) (a b : QuadKey) :
  xdifference fuel a b = xdifference fuel b a /\
  difference fuel a b = difference fuel b a.
Proof.
  assert (E : xdifference fuel a b = xdifference fuel b a).
  { unfold xdifference. rewrite (Z.eqb_sym (level b)).
    destruct (Z.eqb_spec (level a) (level b)) as [->|_]; [|reflexivity].
    now rewrite classify_comm. }
  split; [exact E|]. unfold difference. now rewrite E.
Qed.

Lemma inner_while_no_raise (c : corners) (lvl : Z) :
  1 <= lvl <= 23 ->
  forall fuel cur ys r,
    inner_while fuel c lvl cur = Some (ys, r) -> exists cur', r = OK cur'.
Proof.
  intros Hlvl. induction fuel as [|fuel IH]; intros cur ys r; [discriminate|].
  cbn [inner_while]. destruct (inner_test c cur).
  - rewrite from_tile_OK by assumption.
    destruct (inner_while fuel c lvl _) as [[ys' r']|] eqn:E; [|discriminate].
    intros [= <- <-]. now apply (IH _ _ _ E).
  - intros [= <- <-]. now exists cur.
Qed.

Lemma outer_while_no_raise (c : corners) (lvl : Z) (bound start : tile) :
  1 <= lvl <= 23 ->
  pick (sw c) (nw c) = OK bound ->
  pick (ne c) (se c) = OK start ->
  forall fuel cur ys r,
    outer_while fuel c lvl cur = Some (ys, r) -> r = OK tt.
Proof.
  intros Hlvl Hb Hs.
  induction fuel as [|fuel IH]; intros cur ys r; [discriminate|].
  cbn [outer_while]. rewrite Hb. destruct (fst cur >=? fst bound).
  - destruct (inner_while fuel c lvl cur) as [[ys' r']|] eqn:E;
      [|discriminate].
    destruct (inner_while_no_raise c lvl Hlvl _ _ _ _ E) as [cur' ->].
    rewrite Hs.
    destruct (outer_while fuel c lvl _) as [[zs r'']|] eqn:E'; [|discriminate].
    intros [= <- <-]. now apply (IH _ _ _ E').
  - now intros [= <- <-].
Qed.

(** X7.  The one exception of [xdifference] is its assertion: on a QuadKey
    [a], if a run of [xdifference(a, b)] ends with an exception, whatever the
    fuel, then the levels of [a] and [b] differ, the exception is the
    [AssertionError], and nothing was yielded before it.  No corner variable
    is subscripted while it is [None] and no yielded key is rejected. *)
Theorem xdifference_raises_only_assert
  (fuel : nat) (a b : QuadKey) (l : list QuadKey) (e : exn) :
  constructed a ->
  xdifference fuel a b = Some (l, Raise e) ->
  e = AssertionError /\ l = [] /\ level a <> level b.
Proof.
  intros [Hv Hl]%constructed_inv. unfold xdifference.
  destruct (Z.eqb_spec (level a) (level b)) as [Heq|Hne].
  - pose proof Hv as [Hlen _]%valid_key_spec.
    assert (Hlvl : 1 <= level a <= 23) by (rewrite Hl; unfold len; lia).
    destruct (classify_pick (fst (to_tile a)) (fst (to_tile b)))
      as (bound & start & Hb & Hs).
    rewrite Hs. intros H.
    now apply (outer_while_no_raise _ _ bound start Hlvl Hb Hs) in H.
  - intros [= <- <-]. auto.
Qed.

Lemma xdifference_raises_only_assert_witness :
  let a := {| key := "21"; level := 2 |} in
  let b := {| key := "1"; level := 1 |} in
  (constructed a /\ xdifference 0 a b = Some ([], Raise AssertionError)) /\
  AssertionError = AssertionError /\ @nil QuadKey = [] /\ level a <> level b.
Proof.
  intros a b.
  assert (Ha : constructed a) by (exists "21"; reflexivity).
  assert (H : xdifference 0 a b = Some ([], Raise AssertionError))
    by reflexivity.
  split; [split; assumption|].
  exact (xdifference_raises_only_assert 0 a b [] AssertionError Ha H).
Defined.

Lemma tile_key_to_tile (a : QuadKey) :
  constructed a -> tile_key (level a) (fst (to_tile a)) = a.
Proof.
  intros [Hv Hl]%constructed_inv.
  pose proof Hv as [_ Hd]%valid_key_spec.
  pose proof (tile_to_quadkey_decode (key a) Hd) as E.
  unfold to_tile, tile_key. unfold quadkey_to_tile at 2 in E. cbn [snd] in E.
  rewrite Hl, E, <- Hl. now destruct a.
Qed.

(** X8.  Both arguments are among the results: for QuadKeys [a] and [b] of
    one level, on the tiles [(ax, ay)] and [(bx, by_)], [a.difference(b)]
    returns a list that holds [a] and holds [b]. *)
Theorem difference_endpoints
  (a b : QuadKey) (fuel : nat) (ax ay bx by_ : Z) :
  constructed a -> constructed b ->
  level a = level b ->
  fst (to_tile a) = (ax, ay) ->
  fst (to_tile b) = (bx, by_) ->
  (Z.to_nat (Z.abs (ax - bx) + Z.abs (ay - by_) + 3) <= fuel)%nat ->
  exists l, difference fuel a b = Some (OK l) /\ a ∈ l /\ b ∈ l.
Proof.
  intros Ha Hb Hlev Hta Htb Hfuel.
  pose proof Ha as [Hva Hla]%constructed_inv.
  pose proof Hva as [Hlena _]%valid_key_spec.
  assert (Hlvl : 1 <= level a <= 23) by (rewrite Hla; unfold len; lia).
  destruct (xdifference_grid a b fuel ax ay bx by_ Hlev Hlvl Hta Htb Hfuel)
    as (y0 & d & Hd & Hrun).
  eexists. split; [unfold difference; now rewrite Hrun|].
  split; apply list_elem_of_In, in_map_iff.
  - exists (ax, ay). split; [rewrite <- Hta; now apply tile_key_to_tile|].
    apply list_elem_of_In, (elem_of_grid_rectangle ax ay bx by_ y0 d); [exact Hd|].
    lia.
  - exists (bx, by_).
    split; [rewrite <- Htb, Hlev; now apply tile_key_to_tile|].
    apply list_elem_of_In, (elem_of_grid_rectangle ax ay bx by_ y0 d); [exact Hd|].
    lia.
Qed.

Lemma difference_endpoints_witness :
  let a := {| key := "21"; level := 2 |} in
  let b := {| key := "12"; level := 2 |} in
  (constructed a /\ constructed b /\ level a = level b /\
   fst (to_tile a) = (1, 2) /\ fst (to_tile b) = (2, 1) /\
   (Z.to_nat (Z.abs (1 - 2) + Z.abs (2 - 1) + 3) <= 5)%nat) /\
  exists l, difference 5 a b = Some (OK l) /\ a ∈ l /\ b ∈ l.
Proof.
  intros a b.
  assert (Ha : constructed a) by (exists "21"; reflexivity).
  assert (Hb : constructed b) by (exists "12"; reflexivity).
  assert (Hfuel : (Z.to_nat (Z.abs (1 - 2) + Z.abs (2 - 1) + 3) <= 5)%nat)
    by (vm_compute; lia).
  split; [repeat split; assumption|].
  exact (difference_endpoints a b 5 1 2 2 1 Ha Hb eq_refl eq_refl eq_refl
           Hfuel).
Defined.

(** X9.  The difference of a QuadKey with itself is the QuadKey alone:
    [a.difference(a)] is [[a]], from a fuel of 3 on. *)
Theorem difference_self (a : QuadKey) (fuel : nat) :
  constructed a -> (3 <= fuel)%nat ->
  xdifference fuel a a = Some ([a], OK tt) /\
  difference fuel a a = Some (OK [a]).
Proof.
  intros Ha Hfuel.
  pose proof Ha as [Hva Hla]%constructed_inv.
  pose proof Hva as [Hlena _]%valid_key_spec.
  assert (Hlvl : 1 <= level a <= 23) by (rewrite Hla; unfold len; lia).
  destruct (fst (to_tile a)) as [ax ay] eqn:Hta.
  destruct (xdifference_grid a a fuel ax ay ax ay eq_refl Hlvl Hta Hta)
    as (y0 & d & Hd & Hrun).
  { rewrite !Z.sub_diag. cbn. lia. }
  rewrite !Z.sub_diag in Hrun.
  change (Z.to_nat (Z.abs 0 + 1)) with 1%nat in Hrun.
  cbn [grid column app map] in Hrun.
  assert (Ey : y0 = ay) by lia. subst y0.
  rewrite Z.max_id, <- Hta, (tile_key_to_tile a Ha) in Hrun.
  split; [exact Hrun|]. unfold difference. now rewrite Hrun.
Qed.

Lemma difference_self_witness :
  let a := {| key := "21"; level := 2 |} in
  (constructed a /\ (3 <= 3)%nat) /\
  xdifference 3 a a = Some ([a], OK tt) /\
  difference 3 a a = Some (OK [a]).
Proof.
  intros a.
  assert (Ha : constructed a) by (exists "21"; reflexivity).
  assert (Hf : (3 <= 3)%nat) by lia.
  split; [split; assumption|]. exact (difference_self a 3 Ha Hf).
Defined.

Lemma column_fst (x y d : Z) (n : nat) (t : tile) :
  t ∈ column x y d n -> fst t = x.
Proof. now intros (j & _ & ->)%elem_of_column. Qed.

Lemma grid_fst_le (x y d : Z) (n m : nat) (t : tile) :
  t ∈ grid x y d n m -> fst t <= x.
Proof. intros (i & j & _ & _ & ->)%elem_of_grid. cbn [fst]. lia. Qed.

(** Along the grid the abscissae never increase. *)
Lemma grid_sorted (y d : Z) (n m : nat) :
  forall (x : Z) (i j : nat) (t t' : tile),
    (i <= j)%nat ->
    grid x y d n m !! i = Some t -> grid x y d n m !! j = Some t' ->
    fst t' <= fst t.
Proof.
  induction m as [|m IH]; intros x i j t t' Hij Hi Hj; [discriminate|].
  cbn [grid] in Hi, Hj.
  apply lookup_app_Some in Hi as [Hi|[Hli Hi]];
    apply lookup_app_Some in Hj as [Hj|[Hlj Hj]].
  - apply list_elem_of_lookup_2, column_fst in Hi, Hj. lia.
  - apply list_elem_of_lookup_2, column_fst in Hi.
    apply list_elem_of_lookup_2, grid_fst_le in Hj. lia.
  - apply lookup_lt_Some in Hj. lia.
  - apply (IH (x - 1) (i - List.length (column x y d n))%nat
              (j - List.length (column x y d n))%nat); [lia | assumption..].
Qed.

(** X10.  [difference] lists the rectangle column by column from the largest
    abscissa down: along the list returned by [a.difference(b)] the tile
    abscissa of the elements never increases. *)
Theorem difference_decreasing_x
  (a b : QuadKey) (fuel : nat) (ax ay bx by_ : Z) :
  constructed a -> constructed b ->
  level a = level b ->
  fst (to_tile a) = (ax, ay) ->
  fst (to_tile b) = (bx, by_) ->
  (Z.to_nat (Z.abs (ax - bx) + Z.abs (ay - by_) + 3) <= fuel)%nat ->
  exists l,
    difference fuel a b = Some (OK l) /\
    forall (i j : nat) qi qj,
      (i <= j)%nat -> l !! i = Some qi -> l !! j = Some qj ->
      fst (fst (to_tile qj)) <= fst (fst (to_tile qi)).
Proof.
  intros Ha Hb Hlev Hta Htb Hfuel.
  pose proof Ha as [Hva Hla]%constructed_inv.
  pose proof Hb as [Hvb Hlb]%constructed_inv.
  pose proof Hva as [Hlena Hda]%valid_key_spec.
  pose proof Hvb as [_ Hdb]%valid_key_spec.
  assert (Hlvl : 1 <= level a <= 23) by (rewrite Hla; unfold len; lia).
  pose proof (quadkey_to_tile_range _ Hda) as Hra.
  pose proof (quadkey_to_tile_range _ Hdb) as Hrb.
  unfold to_tile in Hta, Htb. rewrite Hta in Hra. rewrite Htb in Hrb.
  rewrite <- Hla in Hra. rewrite <- Hlb, <- Hlev in Hrb. cbn [fst snd] in *.
  destruct (xdifference_grid a b fuel ax ay bx by_ Hlev Hlvl Hta Htb Hfuel)
    as (y0 & d & Hd & Hrun).
  set (G := grid (Z.max ax bx) y0 d
              (Z.to_nat (Z.abs (ay - by_) + 1))
              (Z.to_nat (Z.abs (ax - bx) + 1))) in *.
  assert (Htiles : map (fun q => fst (to_tile q)) (map (tile_key (level a)) G)
                   = G).
  { apply map_to_tile_tile_key; [lia|]. intros x y Hxy.
    apply (elem_of_grid_rectangle ax ay bx by_ y0 d x y Hd) in Hxy. lia. }
  exists (map (tile_key (level a)) G).
  split; [unfold difference; now rewrite Hrun|].
  intros i j qi qj Hij Hi Hj.
  apply (grid_sorted y0 d (Z.to_nat (Z.abs (ay - by_) + 1))
           (Z.to_nat (Z.abs (ax - bx) + 1)) (Z.max ax bx) i j); [exact Hij|..];
    fold G; rewrite <- Htiles;
    change (map (fun q => fst (to_tile q)) (map (tile_key (level a)) G))
      with ((fun q => fst (to_tile q)) <$> map (tile_key (level a)) G);
    rewrite list_lookup_fmap.
  - now rewrite Hi.
  - now rewrite Hj.
Qed.

Lemma difference_decreasing_x_witness :
  let a := {| key := "21"; level := 2 |} in
  let b := {| key := "12"; level := 2 |} in
  (constructed a /\ constructed b /\ level a = level b /\
   fst (to_tile a) = (1, 2) /\ fst (to_tile b) = (2, 1) /\
   (Z.to_nat (Z.abs (1 - 2) + Z.abs (2 - 1) + 3) <= 5)%nat) /\
  exists l,
    difference 5 a b = Some (OK l) /\
    forall (i j : nat) qi qj,
      (i <= j)%nat -> l !! i = Some qi -> l !! j = Some qj ->
      fst (fst (to_tile qj)) <= fst (fst (to_tile qi)).
Proof.
  intros a b.
  assert (Ha : constructed a) by (exists "21"; reflexivity).
  assert (Hb : constructed b) by (exists "12"; reflexivity).
  assert (Hfuel : (Z.to_nat (Z.abs (1 - 2) + Z.abs (2 - 1) + 3) <= 5)%nat)
    by (vm_compute; lia).
  split; [repeat split; assumption|].
  exact (difference_decreasing_x a b 5 1 2 2 1 Ha Hb eq_refl eq_refl eq_refl
           Hfuel).
Defined.

(** ** More on [nearby] *)

Lemma tile_to_quadkey_inj (L x y x' y' : Z) :
  0 <= L ->
  0 <= x < 2 ^ L -> 0 <= y < 2 ^ L ->
  0 <= x' < 2 ^ L -> 0 <= y' < 2 ^ L ->
  tile_to_quadkey (x, y) L = tile_to_quadkey (x', y') L ->
  (x, y) = (x', y').
Proof.
  intros HL Hx Hy Hx' Hy' E.
  apply (f_equal quadkey_to_tile) in E.
  rewrite !quadkey_to_tile_encode in E by assumption.
  rewrite !Z.mod_small in E by assumption. now injection E as -> ->.
Qed.

Lemma nearby_elements (k : QuadKey) (tx ty : Z) :
  constructed k -> fst (to_tile k) = (tx, ty) ->
  nearby k = map (fun t => tile_to_quadkey t (level k))
               (elements (nearby_tiles (tx, ty))).
Proof.
  intros [_ Hl]%constructed_inv Ht.
  unfold to_tile, quadkey_to_tile in Ht. cbn [fst] in Ht.
  unfold nearby, quadkey_to_tile. now rewrite Ht, <- Hl.
Qed.

Lemma constructed_tile_range (k : QuadKey) (tx ty : Z) :
  constructed k -> fst (to_tile k) = (tx, ty) ->
  1 <= level k <= 23 /\ 2 <= 2 ^ level k /\
  0 <= tx < 2 ^ level k /\ 0 <= ty < 2 ^ level k.
Proof.
  intros [Hv Hl]%constructed_inv Ht.
  pose proof Hv as [Hlen Hd]%valid_key_spec.
  pose proof (quadkey_to_tile_range _ Hd) as Hr.
  unfold to_tile in Ht. rewrite Ht, <- Hl in Hr. cbn [fst snd] in Hr.
  assert (Hlvl : 1 <= level k <= 23) by (rewrite Hl; unfold len; lia).
  split; [exact Hlvl|]. split; [|exact Hr].
  change 2 with (2 ^ 1) at 1. apply Z.pow_le_mono_r; lia.
Qed.

(** A neighbour coordinate [|t + d|] that falls back on [t] modulo the grid
    size has a zero offset. *)
Lemma abs_offset_mod (P t d : Z) :
  2 <= P -> 0 <= t < P -> -1 <= d <= 1 ->
  Z.abs (t + d) mod P = t -> d = 0.
Proof.
  intros HP Ht Hd E.
  destruct (Z.eq_dec (Z.abs (t + d)) P) as [Heq|Hne].
  - rewrite Heq, Z.mod_same in E by lia. lia.
  - rewrite Z.mod_small in E by lia. lia.
Qed.

(** X11.  A QuadKey is not among its own neighbours: the key of [k] is not an
    element of [k.nearby()], also for a tile on the edge of the grid, where
    the offsets are reflected or run past the last tile. *)
Theorem nearby_not_self (k : QuadKey) :
  constructed k -> key k ∉ nearby k.
Proof.
  intros Hk. destruct (fst (to_tile k)) as [tx ty] eqn:Ht.
  destruct (constructed_tile_range k tx ty Hk Ht) as (Hlvl & HP & Hx & Hy).
  rewrite (nearby_elements k tx ty Hk Ht).
  intros (t & E & Hin)%list_elem_of_In%in_map_iff.
  apply list_elem_of_In, elem_of_elements, elem_of_nearby_tiles in Hin
    as (dx & dy & (Hdx & Hdy & Hnz) & ->).
  cbn [fst snd] in E. apply (f_equal quadkey_to_tile) in E.
  rewrite quadkey_to_tile_encode in E by lia.
  unfold to_tile in Ht.
  assert (E' : fst (quadkey_to_tile (key k)) = (tx, ty)) by exact Ht.
  rewrite <- E in E'. cbn [fst] in E'. injection E' as Ex Ey.
  apply abs_offset_mod in Ex; [|lia..].
  apply abs_offset_mod in Ey; [|lia..]. lia.
Qed.

Lemma nearby_not_self_witness :
  let k := {| key := "1"; level := 1 |} in
  constructed k /\ key k ∉ nearby k.
Proof.
  intros k.
  assert (Hk : constructed k) by (exists "1"; reflexivity).
  split; [exact Hk|]. exact (nearby_not_self k Hk).
Defined.

(** X12.  Away from the edge of the grid [nearby] is the Moore neighbourhood:
    for a QuadKey whose tile [(tx, ty)] has [1 <= tx, ty] and
    [tx + 1, ty + 1 < 2^level], [k.nearby()] has exactly 8 elements and they
    are pairwise distinct. *)
Theorem nearby_interior (k : QuadKey) (tx ty : Z) :
  constructed k ->
  fst (to_tile k) = (tx, ty) ->
  1 <= tx -> tx + 1 < 2 ^ level k ->
  1 <= ty -> ty + 1 < 2 ^ level k ->
  List.length (nearby k) = 8%nat /\ NoDup (nearby k).
Proof.
  intros Hk Ht Hx1 Hx2 Hy1 Hy2.
  destruct (constructed_tile_range k tx ty Hk Ht) as (Hlvl & HP & Hx & Hy).
  rewrite (nearby_elements k tx ty Hk Ht).
  set (T := map (fun perm => (Z.abs (fst (tx, ty) + fst perm),
                              Z.abs (snd (tx, ty) + snd perm))) perms).
  assert (HT : NoDup T).
  { unfold T, perms. cbn [map fst snd].
    repeat (apply NoDup_cons_2;
            [rewrite ?elem_of_cons, elem_of_nil; intros H;
             repeat (destruct H as [H|H];
                     [pose proof (f_equal fst H) as H1;
                      pose proof (f_equal snd H) as H2;
                      cbn [fst snd] in H1, H2; lia|]);
             exact H|]).
    apply NoDup_nil_2. }
  assert (Hperm : elements (nearby_tiles (tx, ty)) ≡ₚ T)
    by exact (elements_list_to_set (C := gset tile) T HT).
  split.
  - rewrite length_map, Hperm. reflexivity.
  - change (NoDup ((fun t => tile_to_quadkey t (level k))
                     <$> elements (nearby_tiles (tx, ty)))).
    apply NoDup_fmap_2_strong; [|apply NoDup_elements].
    intros [x y] [x' y'] Hin Hin' E.
    apply elem_of_elements, elem_of_nearby_tiles in Hin
      as (dx & dy & (Hdx & Hdy & _) & [= -> ->]).
    apply elem_of_elements, elem_of_nearby_tiles in Hin'
      as (dx' & dy' & (Hdx' & Hdy' & _) & [= -> ->]).
    cbn [fst snd] in *.
    apply (tile_to_quadkey_inj (level k)) in E; [exact E | lia..].
Qed.

Lemma nearby_interior_witness :
  let k := {| key := "03"; level := 2 |} in
  (constructed k /\ fst (to_tile k) = (1, 1) /\
   1 <= 1 /\ 1 + 1 < 2 ^ level k /\ 1 <= 1 /\ 1 + 1 < 2 ^ level k) /\
  List.length (nearby k) = 8%nat /\ NoDup (nearby k).
Proof.
  intros k.
  assert (Hk : constructed k) by (exists "03"; reflexivity).
  assert (H1 : 1 <= 1) by lia.
  assert (H2 : 1 + 1 < 2 ^ level k) by (vm_compute; reflexivity).
  split; [repeat split; assumption|].
  exact (nearby_interior k 1 1 Hk eq_refl H1 H2 H1 H2).
Defined.

(** ** Comparison of QuadKeys *)

Lemma string_compare_refl (s : string) : String.compare s s = Eq.
Proof.
  pose proof (String.compare_antisym s s) as H.
  destruct (String.compare s s); [reflexivity | discriminate..].
Qed.

Lemma ascii_compare_refl (c : ascii) : Ascii.compare c c = Eq.
Proof. unfold Ascii.compare. apply N.compare_refl. Qed.

Lemma string_compare_lt_trans (s t u : string) :
  String.compare s t = Lt -> String.compare t u = Lt ->
  String.compare s u = Lt.
Proof.
  revert t u; induction s as [|a s IH]; intros [|b t] [|c u]; simpl;
    try discriminate; try reflexivity.
  unfold Ascii.compare.
  destruct (N.compare_spec (N_of_ascii a) (N_of_ascii b)) as [Eab|Lab|Gab];
    try discriminate;
    destruct (N.compare_spec (N_of_ascii b) (N_of_ascii c)) as [Ebc|Lbc|Gbc];
    try discriminate; intros H1 H2.
  - rewrite Eab, Ebc, N.compare_refl. now apply (IH t u).
  - rewrite Eab. apply N.compare_lt_iff in Lbc. now rewrite Lbc.
  - rewrite <- Ebc. apply N.compare_lt_iff in Lab. now rewrite Lab.
  - assert (L : (N_of_ascii a < N_of_ascii c)%N) by lia.
    apply N.compare_lt_iff in L. now rewrite L.
Qed.

Lemma string_compare_prefix (s u : string) :
  u <> EmptyString -> String.compare s (String.append s u) = Lt.
Proof.
  intros Hu. induction s as [|c s IH]; simpl.
  - now destruct u.
  - now rewrite ascii_compare_refl.
Qed.

(** X13.  [<] and [==] order the QuadKeys: of [a < b], [a == b] and [b < a]
    exactly one holds, [!=] is the negation of [==], and [<] is
    transitive. *)
Theorem QuadKey_lt_strict_total (a b c : QuadKey) :
  (QuadKey_lt a b = true /\ QuadKey_eq a b = false /\ QuadKey_lt b a = false
   \/ QuadKey_lt a b = false /\ QuadKey_eq a b = true /\ QuadKey_lt b a = false
   \/ QuadKey_lt a b = false /\ QuadKey_eq a b = false /\ QuadKey_lt b a = true)
  /\ QuadKey_ne a b = negb (QuadKey_eq a b)
  /\ (QuadKey_lt a b = true -> QuadKey_lt b c = true -> QuadKey_lt a c = true).
Proof.
  unfold QuadKey_lt, QuadKey_eq, QuadKey_ne, String.ltb.
  split; [|split; [reflexivity|]].
  - rewrite (String.compare_antisym (key b) (key a)).
    destruct (String.compare (key a) (key b)) eqn:E; cbn [CompOpp].
    + apply String.compare_eq_iff in E. rewrite E, String.eqb_refl. auto.
    + left. repeat split. apply String.eqb_neq. intros E'.
      rewrite E', string_compare_refl in E. discriminate.
    + right; right. repeat split. apply String.eqb_neq. intros E'.
      rewrite E', string_compare_refl in E. discriminate.
  - destruct (String.compare (key a) (key b)) eqn:E1; try discriminate.
    destruct (String.compare (key b) (key c)) eqn:E2; try discriminate.
    intros _ _. now rewrite (string_compare_lt_trans _ _ _ E1 E2).
Qed.

(** X14.  An ancestor sorts before its descendants: for QuadKeys [a] and [b],
    when [a.is_ancestor(b)] is a number then [b < a]. *)
Theorem ancestor_lt_descendant (a b : QuadKey) (d : Z) :
  constructed a -> constructed b ->
  is_ancestor a b = Some d ->
  QuadKey_lt b a = true.
Proof.
  intros [_ La]%constructed_inv [_ Lb]%constructed_inv
         (Hlt & [u Hu]%substring_prefix_iff & _)%is_ancestor_Some_iff.
  unfold QuadKey_lt, String.ltb. rewrite Hu, string_compare_prefix;
    [reflexivity|].
  intros ->. rewrite La, Lb, Hu in Hlt. unfold len in Hlt.
  rewrite length_append in Hlt. simpl in Hlt. lia.
Qed.

Lemma ancestor_lt_descendant_witness :
  let a := {| key := "12030"; level := 5 |} in
  let b := {| key := "120"; level := 3 |} in
  (constructed a /\ constructed b /\ is_ancestor a b = Some 2) /\
  QuadKey_lt b a = true.
Proof.
  intros a b.
  assert (Ha : constructed a) by (exists "12030"; reflexivity).
  assert (Hb : constructed b) by (exists "120"; reflexivity).
  assert (H : is_ancestor a b = Some 2) by reflexivity.
  split; [repeat split; assumption|].
  exact (ancestor_lt_descendant a b 2 Ha Hb H).
Defined.

(** X15.  The string of a QuadKey builds the QuadKey again, and the other way
    round: for a QuadKey [k], [from_str(str(k))] is [k]; and when
    [from_str(s)] returns [k], [str(k)] is [s].  On QuadKeys [==] is
    identity of the objects' contents. *)
Theorem from_str_str (k : QuadKey) :
  constructed k ->
  from_str (QuadKey_str k) = OK k /\
  (forall s, from_str s = OK k -> QuadKey_str k = s) /\
  (forall k', constructed k' -> (QuadKey_eq k k' = true <-> k = k')).
Proof.
  intros Hk. pose proof Hk as [Hv Hl]%constructed_inv.
  unfold from_str, QuadKey_str. split; [|split].
  - rewrite QuadKey_init_valid by assumption. rewrite <- Hl. now destruct k.
  - now intros s [_ ->]%QuadKey_init_OK.
  - intros k' [_ Hl']%constructed_inv. unfold QuadKey_eq.
    rewrite String.eqb_eq. split; [|now intros ->].
    intros E. destruct k, k'; simpl in *. now subst.
Qed.

Lemma from_str_str_witness :
  let k := {| key := "0123"; level := 4 |} in
  constructed k /\
  from_str (QuadKey_str k) = OK k /\
  (forall s, from_str s = OK k -> QuadKey_str k = s) /\
  (forall k', constructed k' -> (QuadKey_eq k k' = true <-> k = k')).
Proof.
  intros k.
  assert (Hk : constructed k) by (exists "0123"; reflexivity).
  split; [exact Hk|]. exact (from_str_str k Hk).
Defined.

(** ** The hierarchy on tiles *)

Lemma quadkey_to_tile_loop_append (s t : string) (ax ay : Z) :
  quadkey_to_tile_loop (String.append s t) ax ay
  = quadkey_to_tile_loop t (fst (quadkey_to_tile_loop s ax ay))
      (snd (quadkey_to_tile_loop s ax ay)).
Proof.
  revert ax ay; induction s as [|c s IH]; intros ax ay; [reflexivity|].
  cbn [String.append quadkey_to_tile_loop]. apply IH.
Qed.

Lemma to_tile_child (k : QuadKey) (x y : Z) (bx by_ : bool) :
  constructed k ->
  fst (to_tile k) = (x, y) ->
  to_tile (child k (digit_char (interleave bx by_)))
  = ((2 * x + Z.b2z bx, 2 * y + Z.b2z by_), level k + 1).
Proof.
  intros Hk Ht.
  destruct (constructed_tile_range k x y Hk Ht) as (_ & _ & Hx & Hy).
  pose proof Hk as [_ Hl]%constructed_inv.
  unfold to_tile, quadkey_to_tile in *. cbn [fst] in Ht. cbn [child key].
  rewrite quadkey_to_tile_loop_append, Ht. cbn [fst snd quadkey_to_tile_loop].
  rewrite char_digit_digit_char, interleave_bit0, interleave_bit1.
  rewrite !lor_shiftl_bit by lia. f_equal.
  unfold len. rewrite length_append, Hl. unfold len. simpl. lia.
Qed.

(** X16.  The children of a QuadKey are the four tiles under its tile: for a
    QuadKey [k] of level below 23 on the tile [(x, y)], the tiles of
    [k.children()] are, in order, [(2x, 2y)], [(2x + 1, 2y)], [(2x, 2y + 1)]
    and [(2x + 1, 2y + 1)], at the level of [k] plus one. *)
Theorem children_tiles (k : QuadKey) (x y : Z) :
  constructed k ->
  level k < 23 ->
  fst (to_tile k) = (x, y) ->
  exists cs,
    children k = OK cs /\
    map to_tile cs
    = [ ((2 * x, 2 * y), level k + 1); ((2 * x + 1, 2 * y), level k + 1);
        ((2 * x, 2 * y + 1), level k + 1);
        ((2 * x + 1, 2 * y + 1), level k + 1) ].
Proof.
  intros Hk Hlt Ht. unfold children.
  destruct (Z.geb_spec (level k) 23) as [H|_]; [lia|].
  cbn [comprehension]. change (str 0) with "0". change (str 1) with "1".
  change (str 2) with "2". change (str 3) with "3".
  rewrite !QuadKey_init_child by (assumption || reflexivity).
  eexists. split; [reflexivity|]. cbn [map].
  rewrite (to_tile_child k x y false false Hk Ht : to_tile (child k "0") = _).
  rewrite (to_tile_child k x y true false Hk Ht : to_tile (child k "1") = _).
  rewrite (to_tile_child k x y false true Hk Ht : to_tile (child k "2") = _).
  rewrite (to_tile_child k x y true true Hk Ht : to_tile (child k "3") = _).
  cbn [Z.b2z]. now rewrite !Z.add_0_r.
Qed.

Lemma children_tiles_witness :
  let k := {| key := "21"; level := 2 |} in
  (constructed k /\ level k < 23 /\ fst (to_tile k) = (1, 2)) /\
  exists cs,
    children k = OK cs /\
    map to_tile cs
    = [ ((2 * 1, 2 * 2), level k + 1); ((2 * 1 + 1, 2 * 2), level k + 1);
        ((2 * 1, 2 * 2 + 1), level k + 1);
        ((2 * 1 + 1, 2 * 2 + 1), level k + 1) ].
Proof.
  intros k.
  assert (Hk : constructed k) by (exists "21"; reflexivity).
  assert (Hl : level k < 23) by (simpl; lia).
  split; [repeat split; assumption|].
  exact (children_tiles k 1 2 Hk Hl eq_refl).
Defined.

(** X17.  The tile of an ancestor holds the tile of its descendant: for
    QuadKeys [a] on the tile [(ax, ay)] and [b], when [a.is_ancestor(b)] is
    [d], the tile of [b] is [(ax / 2^d, ay / 2^d)], the tile of [a] with its
    [d] low bits dropped. *)
Theorem ancestor_tile (a b : QuadKey) (d ax ay : Z) :
  constructed a -> constructed b ->
  is_ancestor a b = Some d ->
  fst (to_tile a) = (ax, ay) ->
  fst (to_tile b) = (ax / 2 ^ d, ay / 2 ^ d).
Proof.
  intros Ha Hb (Hlt & [u Hu]%substring_prefix_iff & ->)%is_ancestor_Some_iff Hta.
  pose proof Ha as [Hva La]%constructed_inv.
  pose proof Hb as [Hvb Lb]%constructed_inv.
  pose proof Hva as [_ Hda]%valid_key_spec.
  pose proof Hvb as [_ Hdb]%valid_key_spec.
  rewrite Hu, all_key_digits_append in Hda.
  apply andb_true_iff in Hda as [_ Hdu].
  destruct (quadkey_to_tile_range _ Hdb) as [Hbx Hby].
  destruct (quadkey_to_tile_loop_decode u Hdu)
    as (X & Y & HX & HY & Hloop & _).
  assert (Hd : level a - level b = len u).
  { rewrite La, Lb, Hu. unfold len. rewrite length_append. lia. }
  rewrite Hd.
  unfold to_tile, quadkey_to_tile in *. cbn [fst] in *.
  rewrite Hu, quadkey_to_tile_loop_append in Hta.
  destruct (quadkey_to_tile_loop (key b) 0 0) as [bx by_]. cbn [fst snd] in *.
  rewrite Hloop in Hta by lia. injection Hta as <- <-.
  assert (HP : 0 < 2 ^ len u) by (apply Z.pow_pos_nonneg; unfold len; lia).
  rewrite !Z.div_add_l, !Z.div_small by lia. f_equal; lia.
Qed.

Lemma ancestor_tile_witness :
  let a := {| key := "12030"; level := 5 |} in
  let b := {| key := "120"; level := 3 |} in
  (constructed a /\ constructed b /\ is_ancestor a b = Some 2 /\
   fst (to_tile a) = (18, 10)) /\
  fst (to_tile b) = (18 / 2 ^ 2, 10 / 2 ^ 2).
Proof.
  intros a b.
  assert (Ha : constructed a) by (exists "12030"; reflexivity).
  assert (Hb : constructed b) by (exists "120"; reflexivity).
  assert (H : is_ancestor a b = Some 2) by reflexivity.
  assert (Ht : fst (to_tile a) = (18, 10)) by reflexivity.
  split; [repeat split; assumption|].
  exact (ancestor_tile a b 2 18 10 Ha Hb H Ht).
Defined.

(** ** The labelled dict of a point *)

(** X18.  [geo_to_dict] labels the two coordinates: the dict of [(lat, lon)]
    holds [lat] under 'lat' and [lon] under 'lon', and nothing under any
    other key. *)
Theorem geo_to_dict_lookup (lat lon : float) (k : string) :
  geo_to_dict (lat, lon) !! LAT_STR = Some lat /\
  geo_to_dict (lat, lon) !! LON_STR = Some lon /\
  (k <> LAT_STR -> k <> LON_STR -> geo_to_dict (lat, lon) !! k = None).
Proof.
  unfold geo_to_dict. cbn [fst snd]. split; [|split].
  - rewrite lookup_insert_ne by discriminate. apply lookup_insert_eq.
  - apply lookup_insert_eq.
  - intros H1 H2. rewrite !lookup_insert_ne by congruence.
    apply lookup_empty.
Qed.

(** ** Tiles outside the grid *)

(** X19.  [from_tile] checks no tile coordinate: at a level in [1, 23] it
    succeeds on any pair of integers, and the QuadKey it returns is the one of
    the tile with both coordinates reduced modulo [2^level];
    [from_tile((x, y), level).to_tile()] is
    [((x mod 2^level, y mod 2^level), level)]. *)
Theorem from_tile_wraps (x y L : Z) :
  1 <= L <= 23 ->
  exists q,
    from_tile (x, y) L = OK q /\
    from_tile (x mod 2 ^ L, y mod 2 ^ L) L = OK q /\
    to_tile q = ((x mod 2 ^ L, y mod 2 ^ L), L).
Proof.
  intros HL. exists (tile_key L (x, y)).
  split; [now apply from_tile_OK|]. split.
  - rewrite from_tile_OK by assumption. unfold tile_key, tile_to_quadkey.
    cbn [fst snd]. do 2 f_equal.
    rewrite <- (Z2Nat.id L) at 1 2 by lia.
    apply tile_to_quadkey_loop_mod.
  - unfold to_tile, tile_key. cbn [key].
    apply quadkey_to_tile_encode. lia.
Qed.

Lemma from_tile_wraps_witness :
  1 <= 1 <= 23 /\
  exists q,
    from_tile (2, 1) 1 = OK q /\
    from_tile (2 mod 2 ^ 1, 1 mod 2 ^ 1) 1 = OK q /\
    to_tile q = ((2 mod 2 ^ 1, 1 mod 2 ^ 1), 1).
Proof.
  assert (HL : 1 <= 1 <= 23) by lia.
  split; [exact HL|]. exact (from_tile_wraps 2 1 1 HL).
Defined.
